(** * Fixed-point binary encoder of [generate_mappings.py]

    A shallow embedding of [float_to_bin_str]
    (testbench/bilinear_xform_engine_tb/test_transformations/generate_mappings.py,
    lines 16-68) and the proofs of its specification, followed by
    [apply_transformation] (lines 3-12) and the script that writes the
    mapping files (lines 71-117).

    Modelling choices.
    - [number] is the exact value ([Q]) of the finite Python number passed
      in: an int, a finite double or a Fraction.  The function only compares
      [number] with other numbers, and Python compares these exactly.  The
      infinities and nan are not values and are not modelled as inputs.
    - The accumulator is a Python number ([pynum]): an int, computed exactly,
      until the fractional loop adds the double [2**bit_idx] to it.  That
      addition converts an int to a double (OverflowError when it is too
      large) and rounds the sum to the nearest double, ties to even.
    - [bit_idx], [int_bits] and [frac_bits] are Python integers ([Z]).
    - Bit strings are [string]; [+=] is [append].
    - Every [while] of the source spends one unit of fuel per iteration of
      its body.  A call gives back the fuel that is left, so the number of
      loop iterations of a call is the fuel it consumed. *)

From Stdlib Require Import ZArith QArith Qabs Qround Qpower String Ascii List Lia Lqa Bool.
Import ListNotations.

Local Open Scope string_scope.
Local Open Scope Z_scope.

(** ** A fuel monad for the loops *)

Definition M (A : Type) : Type := nat -> option (A * nat).

Definition ret {A : Type} (a : A) : M A := fun fuel => Some (a, fuel).

Definition bind {A B : Type} (m : M A) (k : A -> M B) : M B :=
  fun fuel =>
    match m fuel with
    | Some (a, rest) => k a rest
    | None => None
    end.

Notation "x <- m ;; k" := (bind m (fun x => k))
  (at level 61, m at next level, right associativity).

(** [while cond: s = body s], one unit of fuel per iteration. *)
Fixpoint while_loop {S : Type} (cond : S -> bool) (body : S -> S) (s : S)
  (fuel : nat) : option (S * nat) :=
  match fuel with
  | O => if cond s then None else Some (s, O)
  | Datatypes.S fuel' =>
      if cond s then while_loop cond body (body s) fuel' else Some (s, fuel)
  end.

(** ** Exceptions *)

Inductive exn : Type := OverflowError | IndexError.

Inductive except (A : Type) : Type :=
| Value (a : A)
| Raise (e : exn).

Arguments Value {A} a.
Arguments Raise {A} e.

(** Computations that spend fuel and may raise. *)
Definition E (A : Type) : Type := M (except A).

Definition eret {A : Type} (a : A) : E A := ret (Value a).

Definition ebind {A B : Type} (m : E A) (k : A -> E B) : E B :=
  r <- m ;;
  match r with
  | Value a => k a
  | Raise e => ret (Raise e)
  end.

Definition lift {A : Type} (m : M A) : E A := a <- m ;; ret (Value a).

Notation "x <-! m ;; k" := (ebind m (fun x => k))
  (at level 61, m at next level, right associativity).

(** [while cond: s = body s] with a body that may raise; the iteration that
    raises has spent its unit of fuel. *)
Fixpoint while_loop_exc {S : Type} (cond : S -> bool) (body : S -> except S)
  (s : S) (fuel : nat) : option (except S * nat) :=
  match fuel with
  | O => if cond s then None else Some (Value s, O)
  | Datatypes.S fuel' =>
      if cond s then
        match body s with
        | Value s' => while_loop_exc cond body s' fuel'
        | Raise e => Some (Raise e, fuel')
        end
      else Some (Value s, fuel)
  end.

(** ** Python primitives used by the encoder *)

(** [2**bit_idx] as an exact number. *)
Definition pow2 (bit_idx : Z) : Q := Qpower 2 bit_idx.

(** [a < b] on numbers. *)
Definition Qlt_bool (a b : Q) : bool := negb (Qle_bool b a).

(** [len(s)] *)
Definition len (s : string) : Z := Z.of_nat (String.length s).

(** [c * n] for a one-character string [c]: empty when [n <= 0]. *)
Definition str_repeat (c : ascii) (n : Z) : string :=
  string_of_list_ascii (repeat c (Z.to_nat n)).

Fixpoint str_drop (n : nat) (s : string) : string :=
  match n, s with
  | O, _ => s
  | Datatypes.S _, EmptyString => EmptyString
  | Datatypes.S n', String _ s' => str_drop n' s'
  end.

(** [s[start:]]: a negative [start] counts from the end, and the bounds are
    clamped. *)
Definition slice_from (s : string) (start : Z) : string :=
  if start <? 0 then str_drop (Z.to_nat (Z.max 0 (len s + start))) s
  else str_drop (Z.to_nat start) s.

(** ** Python numbers *)

(** A double: finite, with its exact value, infinite, or not a number.  The
    sign of a zero is not kept; the code below never observes it. *)
Inductive float : Type :=
| Finite (x : Q)
| Infinity (negative : bool)
| NaN.

(** A Python int or float. *)
Inductive pynum : Type :=
| PyInt (z : Z)
| PyFloat (f : float).

(** [floor(log2(|x|))] for [x <> 0]. *)
Definition Qlog2 (x : Q) : Z :=
  let e0 := Z.log2 (Z.abs (Qnum x)) - Z.log2 (Zpos (Qden x)) in
  if Qle_bool (pow2 e0) (Qabs x) then e0 else e0 - 1.

(** The nearest integer, a tie going to the even one. *)
Definition round_half_even (y : Q) : Z :=
  let f := Qfloor y in
  match Qcompare (y - inject_Z f) (1 # 2) with
  | Lt => f
  | Gt => f + 1
  | Eq => if Z.even f then f else f + 1
  end.

(** The double nearest to the exact value [x] (IEEE 754 binary64, round to
    nearest, ties to even): 53 significant bits, no exponent below that of
    the subnormals, whose unit is [2^-1074], and an infinity once the
    rounded value reaches [2^1024]. *)
Definition round64 (x : Q) : float :=
  if Qeq_bool x 0 then Finite 0
  else
    let q := Z.max (Qlog2 x - 52) (-1074) in
    let y := (inject_Z (round_half_even (x / pow2 q)) * pow2 q)%Q in
    if Qle_bool (pow2 1024) (Qabs y) then Infinity (Qlt_bool x 0)
    else Finite y.

(** The conversion of an int to a double: OverflowError ("int too large to
    convert to float") where the nearest double would be infinite. *)
Definition float_of_int (z : Z) : except float :=
  match round64 (inject_Z z) with
  | Finite y => Value (Finite y)
  | _ => Raise OverflowError
  end.

(** [a + b] on doubles. *)
Definition fadd (a b : float) : float :=
  match a, b with
  | NaN, _ | _, NaN => NaN
  | Finite x, Finite y => round64 (x + y)
  | Infinity s, Infinity t => if Bool.eqb s t then Infinity s else NaN
  | Infinity s, Finite _ | Finite _, Infinity s => Infinity s
  end.

(** [-a] on doubles. *)
Definition fneg (a : float) : float :=
  match a with
  | Finite x => Finite (- x)
  | Infinity s => Infinity (negb s)
  | NaN => NaN
  end.

(** [a + b] on Python numbers: exact on two ints; otherwise an int operand
    is converted to a double first. *)
Definition py_add (a b : pynum) : except pynum :=
  match a, b with
  | PyInt x, PyInt y => Value (PyInt (x + y))
  | PyInt x, PyFloat g =>
      match float_of_int x with
      | Value f => Value (PyFloat (fadd f g))
      | Raise e => Raise e
      end
  | PyFloat f, PyInt y =>
      match float_of_int y with
      | Value g => Value (PyFloat (fadd f g))
      | Raise e => Raise e
      end
  | PyFloat f, PyFloat g => Value (PyFloat (fadd f g))
  end.

(** [a * b] on doubles.  The sign of a zero is not kept: no operation of
    the source can tell the two zeros apart. *)
Definition fmul (a b : float) : float :=
  match a, b with
  | NaN, _ | _, NaN => NaN
  | Finite x, Finite y => round64 (x * y)
  | Infinity s, Infinity t => Infinity (xorb s t)
  | Infinity s, Finite y | Finite y, Infinity s =>
      if Qeq_bool y 0 then NaN else Infinity (xorb s (Qlt_bool y 0))
  end.

(** [a * b] on Python numbers: exact on two ints; otherwise an int operand
    is converted to a double first. *)
Definition py_mul (a b : pynum) : except pynum :=
  match a, b with
  | PyInt x, PyInt y => Value (PyInt (x * y))
  | PyInt x, PyFloat g =>
      match float_of_int x with
      | Value f => Value (PyFloat (fmul f g))
      | Raise e => Raise e
      end
  | PyFloat f, PyInt y =>
      match float_of_int y with
      | Value g => Value (PyFloat (fmul f g))
      | Raise e => Raise e
      end
  | PyFloat f, PyFloat g => Value (PyFloat (fmul f g))
  end.

(** [-a] *)
Definition py_neg (a : pynum) : pynum :=
  match a with
  | PyInt x => PyInt (- x)
  | PyFloat f => PyFloat (fneg f)
  end.

(** [2**bit_idx] as Python computes it: an int for [bit_idx >= 0], else the
    double [2.0**bit_idx], which is exact down to [2**-1074] and [0.0]
    below. *)
Definition py_pow2 (bit_idx : Z) : pynum :=
  if 0 <=? bit_idx then PyInt (2 ^ bit_idx)
  else if -1074 <=? bit_idx then PyFloat (Finite (pow2 bit_idx))
  else PyFloat (Finite 0).

(** [a <= number]; Python compares ints and doubles by their exact values. *)
Definition py_le (a : pynum) (number : Q) : bool :=
  match a with
  | PyInt z => Qle_bool (inject_Z z) number
  | PyFloat (Finite x) => Qle_bool x number
  | PyFloat (Infinity negative) => negative
  | PyFloat NaN => false
  end.

(** ** The encoder *)

(** The locals that the accumulation loops update. *)
Record locals : Type := mkLocals {
  bit_idx : Z;
  acc : pynum;
  int_bits_str : string;
  frac_bits_str : string
}.

(** Lines 26-32: the magnitude search.  The powers are ints here and the
    comparisons exact. *)
Definition magnitude_search (negative : bool) (number : Q) : M Z :=
  if negative then
    while_loop (fun bit_idx => Qlt_bool number (- pow2 bit_idx)) Z.succ 0
  else
    bit_idx <- while_loop (fun bit_idx => Qle_bool (pow2 bit_idx) number) Z.succ 0 ;;
    ret (bit_idx - 1).

(** Lines 34-38: the accumulator and the sign bit. *)
Definition init_acc (negative : bool) (bit_idx : Z) : locals :=
  if negative then
    {| bit_idx := bit_idx - 1; acc := py_neg (py_pow2 bit_idx);
       int_bits_str := "" ++ "1"; frac_bits_str := "" |}
  else
    {| bit_idx := bit_idx; acc := PyInt 0; int_bits_str := ""; frac_bits_str := "" |}.

(** Lines 41-47: the body of the integer loop. *)
Definition int_step (number : Q) (l : locals) : except locals :=
  match py_add (acc l) (py_pow2 (bit_idx l)) with
  | Raise e => Raise e
  | Value calc =>
      if py_le calc number then
        Value {| bit_idx := bit_idx l - 1; acc := calc;
                 int_bits_str := int_bits_str l ++ "1";
                 frac_bits_str := frac_bits_str l |}
      else
        Value {| bit_idx := bit_idx l - 1; acc := acc l;
                 int_bits_str := int_bits_str l ++ "0";
                 frac_bits_str := frac_bits_str l |}
  end.

(** Lines 50-56: the body of the fractional loop. *)
Definition frac_step (number : Q) (l : locals) : except locals :=
  match py_add (acc l) (py_pow2 (bit_idx l)) with
  | Raise e => Raise e
  | Value calc =>
      if py_le calc number then
        Value {| bit_idx := bit_idx l - 1; acc := calc;
                 int_bits_str := int_bits_str l;
                 frac_bits_str := frac_bits_str l ++ "1" |}
      else
        Value {| bit_idx := bit_idx l - 1; acc := acc l;
                 int_bits_str := int_bits_str l;
                 frac_bits_str := frac_bits_str l ++ "0" |}
  end.

(** Lines 17-47: the sign flag and the locals after the integer loop;
    [int_bits_str] is then the raw integer-part string. *)
Definition integer_part (number : Q) : E (bool * locals) :=
  let negative := Qlt_bool number 0 in
  bit_idx0 <-! lift (magnitude_search negative number) ;;
  l <-! while_loop_exc (fun l => bit_idx l >? -1) (int_step number)
          (init_acc negative bit_idx0) ;;
  eret (negative, l).

(** Lines 17-56: everything before the width adjustment. *)
Definition accumulate (number : Q) (frac_bits : Z) : E (bool * locals) :=
  r <-! integer_part number ;;
  let '(negative, l) := r in
  l <-! while_loop_exc (fun l => bit_idx l >=? - frac_bits) (frac_step number) l ;;
  eret (negative, l).

(** Lines 58-66: the width adjustment of the integer-part string. *)
Definition width_adjust (negative : bool) (int_bits : Z) (int_bits_str : string)
  : string :=
  let int_str_len := len int_bits_str in
  let int_bits_str :=
    if int_str_len <? int_bits then
      if negative then str_repeat "1" (int_bits - int_str_len) ++ int_bits_str
      else str_repeat "0" (int_bits - int_str_len) ++ int_bits_str
    else int_bits_str in
  if int_str_len >? int_bits then slice_from int_bits_str (int_str_len - int_bits)
  else int_bits_str.

Definition float_to_bin_str (number : Q) (int_bits frac_bits : Z)
  : E (string * string) :=
  r <-! accumulate number frac_bits ;;
  let '(negative, l) := r in
  eret (width_adjust negative int_bits (int_bits_str l), frac_bits_str l).

(** A call returns [r] when some amount of fuel lets it finish with [r]. *)
Definition returns (number : Q) (int_bits frac_bits : Z) (r : string * string)
  : Prop :=
  exists fuel rest,
    float_to_bin_str number int_bits frac_bits fuel = Some (Value r, rest).

(** A call raises [e] when some amount of fuel lets it get to the point
    where [e] is raised. *)
Definition raises (number : Q) (int_bits frac_bits : Z) (e : exn) : Prop :=
  exists fuel rest,
    float_to_bin_str number int_bits frac_bits fuel = Some (Raise e, rest).


(** ** The coordinate transform (lines 3-12) *)

(** Sequencing of steps that may raise. *)
Definition xbind {A B : Type} (o : except A) (k : A -> except B) : except B :=
  match o with
  | Value a => k a
  | Raise e => Raise e
  end.

Notation "x <-? o ;; k" := (xbind o (fun x => k))
  (at level 61, o at next level, right associativity).

(** [l[i]] on a Python list: a negative index counts from the end, and
    IndexError is raised outside the list. *)
Definition subscript {A : Type} (l : list A) (i : Z) : except A :=
  let n := Z.of_nat (List.length l) in
  let at_ (k : Z) :=
    match nth_error l (Z.to_nat k) with
    | Some a => Value a
    | None => Raise IndexError
    end in
  if i <? 0 then
    if n + i <? 0 then Raise IndexError else at_ (n + i)
  else at_ i.

(** The numbers that the transform multiplies and adds.  The source does
    not fix their type; [times] and [plus] are Python's [*] and [+] on
    them. *)
Class Number (N : Type) : Type := {
  times : N -> N -> except N;
  plus : N -> N -> except N
}.

(** Python ints: exact, unbounded, never raising. *)
#[export] Instance int_number : Number Z := {|
  times a b := Value (a * b);
  plus a b := Value (a + b)
|}.

(** Python ints and doubles mixed. *)
#[export] Instance pynum_number : Number pynum := {|
  times := py_mul;
  plus := py_add
|}.

(** [c[j] * m[r][j]], evaluated left to right. *)
Definition term {N : Type} `{Number N} (c : list N) (m : list (list N)) (r j : Z)
  : except N :=
  cj <-? subscript c j ;;
  row <-? subscript m r ;;
  e <-? subscript row j ;;
  times cj e.

(** [c[0] * m[r][0] + c[1] * m[r][1] + c[2] * m[r][2]]: the first sum is
    formed before the third product is evaluated. *)
Definition row_sum {N : Type} `{Number N} (c : list N) (m : list (list N)) (r : Z)
  : except N :=
  t0 <-? term c m r 0 ;;
  t1 <-? term c m r 1 ;;
  s <-? plus t0 t1 ;;
  t2 <-? term c m r 2 ;;
  plus s t2.

Definition apply_transformation {N : Type} `{Number N}
  (c : list N) (m : list (list N)) : except (N * N * N) :=
  x <-? row_sum c m 0 ;;
  y <-? row_sum c m 1 ;;
  one <-? row_sum c m 2 ;;
  Value (x, y, one).

(** ** The script (lines 71-117)

    The five output files are the state of the script: each holds the text
    written to it so far.  A step of the script either finishes, raises an
    exception with the files as they are at that moment, or runs out of fuel
    inside a call of the encoder.  Failures of the file system are not
    modelled.  The matrix holds Python ints, like the one on lines 81-83;
    the grid points are ints, so every number that reaches the encoder is
    an int. *)

Inductive stream : Type :=
| X_int_file | X_frac_file | Y_int_file | Y_frac_file | Matrix_file.

Record files : Type := mkFiles {
  x_int_file : string;
  x_frac_file : string;
  y_int_file : string;
  y_frac_file : string;
  matrix_file : string
}.

(** The files right after [open(..., 'w')]. *)
Definition opened : files := mkFiles "" "" "" "" "".

Definition content (f : stream) (fs : files) : string :=
  match f with
  | X_int_file => x_int_file fs
  | X_frac_file => x_frac_file fs
  | Y_int_file => y_int_file fs
  | Y_frac_file => y_frac_file fs
  | Matrix_file => matrix_file fs
  end.

(** [f.write(s)] *)
Definition write (f : stream) (s : string) (fs : files) : files :=
  match f with
  | X_int_file =>
      mkFiles (x_int_file fs ++ s) (x_frac_file fs) (y_int_file fs) (y_frac_file fs)
        (matrix_file fs)
  | X_frac_file =>
      mkFiles (x_int_file fs) (x_frac_file fs ++ s) (y_int_file fs) (y_frac_file fs)
        (matrix_file fs)
  | Y_int_file =>
      mkFiles (x_int_file fs) (x_frac_file fs) (y_int_file fs ++ s) (y_frac_file fs)
        (matrix_file fs)
  | Y_frac_file =>
      mkFiles (x_int_file fs) (x_frac_file fs) (y_int_file fs) (y_frac_file fs ++ s)
        (matrix_file fs)
  | Matrix_file =>
      mkFiles (x_int_file fs) (x_frac_file fs) (y_int_file fs) (y_frac_file fs)
        (matrix_file fs ++ s)
  end.

(** The string "\n". *)
Definition newline : string := String (ascii_of_nat 10) "".

Inductive result (A : Type) : Type :=
| Ok (a : A) (fs : files) (rest : nat)
| Raised (e : exn) (fs : files)
| OutOfFuel.

Arguments Ok {A} a fs rest.
Arguments Raised {A} e fs.
Arguments OutOfFuel {A}.

Definition script (A : Type) : Type := files -> nat -> result A.

Definition sret {A : Type} (a : A) : script A := fun fs fuel => Ok a fs fuel.

Definition sbind {A B : Type} (m : script A) (k : A -> script B) : script B :=
  fun fs fuel =>
    match m fs fuel with
    | Ok a fs' rest => k a fs' rest
    | Raised e fs' => Raised e fs'
    | OutOfFuel => OutOfFuel
    end.

Notation "x <~ m ;; k" := (sbind m (fun x => k))
  (at level 61, m at next level, right associativity).
Notation "m ;;; k" := (sbind m (fun _ => k))
  (at level 61, right associativity).

(** A call of the encoder from the script. *)
Definition call {A : Type} (m : E A) : script A :=
  fun fs fuel =>
    match m fuel with
    | Some (Value a, rest) => Ok a fs rest
    | Some (Raise e, _) => Raised e fs
    | None => OutOfFuel
    end.

(** A subscript or a call of the transform, which may raise. *)
Definition attempt {A : Type} (o : except A) : script A :=
  fun fs fuel =>
    match o with
    | Value a => Ok a fs fuel
    | Raise e => Raised e fs
    end.

Definition do_write (f : stream) (s : string) : script unit :=
  fun fs fuel => Ok tt (write f s fs) fuel.

(** [for x in xs: body] *)
Fixpoint for_each {A : Type} (xs : list A) (body : A -> script unit) : script unit :=
  match xs with
  | [] => sret tt
  | x :: xs' => body x ;;; for_each xs' body
  end.

(** [range(n)] *)
Definition range (n : Z) : list Z := map Z.of_nat (seq 0 (Z.to_nat n)).

(** Lines 95-96: one entry of the matrix file. *)
Definition write_matrix_entry (matrix : list (list Z)) (num_frac_bits : Z)
  (y x : Z) : script unit :=
  row <~ attempt (subscript matrix y) ;;
  e <~ attempt (subscript row x) ;;
  r <~ call (float_to_bin_str (inject_Z e) 11 num_frac_bits) ;;
  let '(m_int_str, m_frac_str) := r in
  do_write Matrix_file ((m_int_str ++ m_frac_str) ++ newline).

(** Lines 101-111: one grid point. *)
Definition write_coordinate (matrix : list (list Z))
  (num_int_bits num_frac_bits : Z) (y x : Z) : script unit :=
  t <~ attempt (apply_transformation [x; y; 1] matrix) ;;
  let '(x_xform, y_xform, _) := t in
  rx <~ call (float_to_bin_str (inject_Z x_xform) num_int_bits num_frac_bits) ;;
  let '(x_int_bin_str, x_frac_bin_str) := rx in
  ry <~ call (float_to_bin_str (inject_Z y_xform) num_int_bits num_frac_bits) ;;
  let '(y_int_bin_str, y_frac_bin_str) := ry in
  do_write X_int_file (x_int_bin_str ++ newline) ;;;
  do_write X_frac_file (x_frac_bin_str ++ newline) ;;;
  do_write Y_int_file (y_int_bin_str ++ newline) ;;;
  do_write Y_frac_file (y_frac_bin_str ++ newline).

(** Lines 89-117, as a function of the values assigned on lines 73-87. *)
Definition main (width height : Z) (matrix : list (list Z))
  (num_int_bits num_frac_bits : Z) : script unit :=
  for_each (range 3) (fun y =>
    for_each (range 3) (fun x =>
      write_matrix_entry matrix num_frac_bits y x)) ;;;
  for_each (range height) (fun y =>
    for_each (range width) (fun x =>
      write_coordinate matrix num_int_bits num_frac_bits y x)).

(** The matrix of lines 81-83. *)
Definition identity_matrix : list (list Z) := [[1; 0; 0]; [0; 1; 0]; [0; 0; 1]].

(** The script with the values of lines 73-87. *)
Definition example_usage : script unit := main 10 10 identity_matrix 5 12.
(** ** Reading bit strings back *)

Definition bit_of (c : ascii) : Z := if Ascii.eqb c "1" then 1 else 0.


(** The string read as an unsigned binary number, most significant bit
    first. *)
Fixpoint unsigned (s : string) : Z :=
  match s with
  | EmptyString => 0
  | String c s' => bit_of c * 2 ^ len s' + unsigned s'
  end.


(** The string read as a two's-complement number: the first bit weighs
    [- 2^(len s - 1)]. *)
Definition twos_complement (s : string) : Z :=
  match s with
  | EmptyString => 0
  | String c s' => unsigned s' - bit_of c * 2 ^ len s'
  end.






(** The bits that [n] rounds of the greedy accumulation emit from bit
    position [j] downwards, and the accumulator they leave. *)
Fixpoint greedy (number : Q) (n : nat) (j : Z) (a : Q) : string * Q :=
  match n with
  | O => ("", a)
  | Datatypes.S n' =>
      let calc := (a + pow2 j)%Q in
      if Qle_bool calc number then
        let (t, a') := greedy number n' (j - 1) calc in (String "1" t, a')
      else
        let (t, a') := greedy number n' (j - 1) a in (String "0" t, a')
  end.

(** ** Quantities used to state what a call computes *)

(** A computation is uniform in its fuel when spare fuel is handed back
    untouched. *)
Definition uniform {A : Type} (m : M A) : Prop :=
  forall fuel a rest extra,
    m fuel = Some (a, rest) -> m (fuel + extra)%nat = Some (a, (rest + extra)%nat).


(** What lines 26-32 leave in [bit_idx]. *)
Definition start_index (number : Q) (k : Z) : Prop :=
  if Qlt_bool number 0 then
    0 <= k /\ (- pow2 k <= number)%Q /\
    (forall j, 0 <= j < k -> (number < - pow2 j)%Q)
  else
    -1 <= k /\ (number < pow2 (k + 1))%Q /\
    (forall j, 0 <= j <= k -> (pow2 j <= number)%Q).


(** Iterations of the magnitude search, and of the integer loop after it. *)
Definition int_rounds (negative : bool) (k : Z) : nat :=
  if negative then Z.to_nat k else Z.to_nat (k + 1).

(** The raw integer-part string and the exact accumulator after the integer
    loop, for the starting index [k]. *)
Definition after_int (number : Q) (k : Z) : string * Q :=
  if Qlt_bool number 0 then
    let g := greedy number (Z.to_nat k) (k - 1) (- pow2 k) in
    ("1" ++ fst g, snd g)
  else
    let g := greedy number (Z.to_nat (k + 1)) k 0 in
    (fst g, snd g).

Definition raw_int (number : Q) (k : Z) : string := fst (after_int number k).

(** The fractional-part string that exact arithmetic would give. *)
Definition frac_str (number : Q) (k frac_bits : Z) : string :=
  fst (greedy number (Z.to_nat frac_bits) (-1) (snd (after_int number k))).

(** The string holds only the characters '0' and '1'. *)
Fixpoint bits_only (s : string) : bool :=
  match s with
  | EmptyString => true
  | String c s' => (Ascii.eqb c "0" || Ascii.eqb c "1") && bits_only s'
  end.


(** The starting index in closed form, with the base-2 logarithms that
    the comment on line 25 sets aside. *)
Definition start_index_of (number : Q) : Z :=
  if Qlt_bool number 0 then Z.log2_up (- Qfloor number)
  else if Qlt_bool number 1 then -1
  else Z.log2 (Qfloor number).

(** The pair of strings that exact arithmetic would give. *)
Definition exact_encoding (number : Q) (int_bits frac_bits : Z) : string * string :=
  let k := start_index_of number in
  (width_adjust (Qlt_bool number 0) int_bits (raw_int number k),
   frac_str number k frac_bits).

(** The bits that [n] rounds of the accumulation of lines 41-47 and 50-56
    emit from bit position [j] downwards on Python numbers, the accumulator
    they leave, and the number of rounds begun. *)
Fixpoint py_greedy (number : Q) (n : nat) (j : Z) (a : pynum)
  : except (string * pynum) * nat :=
  match n with
  | O => (Value ("", a), O)
  | Datatypes.S n' =>
      match py_add a (py_pow2 j) with
      | Raise e => (Raise e, 1%nat)
      | Value calc =>
          let taken := py_le calc number in
          match py_greedy number n' (j - 1) (if taken then calc else a) with
          | (Value (t, a'), c) =>
              (Value (String (if taken then "1" else "0")%char t, a'), Datatypes.S c)
          | (Raise e, c) => (Raise e, Datatypes.S c)
          end
      end
  end.

(** The fractional loop of a call: it starts from the int [floor(number)]. *)
Definition py_frac (number : Q) (frac_bits : Z) : except (string * pynum) * nat :=
  py_greedy number (Z.to_nat frac_bits) (-1) (PyInt (Qfloor number)).

(** How a call ends. *)
Definition outcome (number : Q) (int_bits frac_bits : Z) : except (string * string) :=
  match fst (py_frac number frac_bits) with
  | Value (t, _) =>
      Value (width_adjust (Qlt_bool number 0) int_bits
               (raw_int number (start_index_of number)), t)
  | Raise e => Raise e
  end.

(** The loop iterations of a call. *)
Definition cost (number : Q) (frac_bits : Z) : nat :=
  (2 * int_rounds (Qlt_bool number 0) (start_index_of number)
   + snd (py_frac number frac_bits))%nat.

(** The int [z] converts to a double: its magnitude is below
    [2^1024 - 2^970], half a unit in the last place above the largest
    double. *)
Definition fits_double (z : Z) : Prop := Z.abs z < 2 ^ 1024 - 2 ^ 970.

(** The Python number [a] is finite and has the exact value [v]. *)
Definition represents (a : pynum) (v : Q) : Prop :=
  match a with
  | PyInt z => (inject_Z z == v)%Q
  | PyFloat (Finite x) => (x == v)%Q
  | PyFloat _ => False
  end.

(** The accumulator never makes the fractional loop raise: it is a double
    already, or an int that converts. *)
Definition convertible (a : pynum) : Prop :=
  match a with
  | PyInt z => exists y, float_of_int z = Value (Finite y)
  | PyFloat _ => True
  end.


(** ** Quantities used to state what the transform computes *)

(** A returned tuple, to pass it on as the coordinate of a second call. *)
Definition as_list {N : Type} (t : N * N * N) : list N :=
  let '(x, y, one) := t in [x; y; one].

(** [m] has the three rows of three entries that the transform and the
    script read. *)
Definition well_formed {N : Type} (m : list (list N)) : bool :=
  (3 <=? List.length m)%nat &&
  forallb (fun row => (3 <=? List.length row)%nat) (firstn 3 m).

(** [c] has the three entries that the transform reads, and [m] is well
    formed. *)
Definition readable {N : Type} (c : list N) (m : list (list N)) : bool :=
  (3 <=? List.length c)%nat && well_formed m.

(** The product of two 3x3 integer matrices given as lists of rows. *)
Definition entry (m : list (list Z)) (r j : nat) : Z := nth j (nth r m []) 0.

Definition mat_mul (a b : list (list Z)) : list (list Z) :=
  map (fun r =>
         map (fun j => entry a r 0 * entry b 0 j + entry a r 1 * entry b 1 j
                       + entry a r 2 * entry b 2 j)
             [0; 1; 2]%nat)
      [0; 1; 2]%nat.

(** The ints of a list or matrix as Python numbers. *)
Definition ints (l : list Z) : list pynum := map PyInt l.

Definition int_matrix (m : list (list Z)) : list (list pynum) := map ints m.

(** ** Quantities used to state what the script writes *)

(** The text of a file made of the given lines. *)
Definition join (ls : list string) : string :=
  fold_right (fun l text => (l ++ newline) ++ text) "" ls.

(** The grid points in the order the script visits them. *)
Definition grid (width height : Z) : list (Z * Z) :=
  flat_map (fun y => map (fun x => (y, x)) (range width)) (range height).

(** The pairs of the matrix loop in the order it visits them. *)
Definition matrix_pairs : list (Z * Z) := grid 3 3.

(** The nine entries that the matrix loop reads, row by row. *)
Definition matrix_entries (matrix : list (list Z)) : list Z :=
  flat_map (firstn 3) (firstn 3 matrix).

(** [matrix[y][x]] for the pair [p = (y, x)]. *)
Definition lookup (matrix : list (list Z)) (p : Z * Z) : except Z :=
  row <-? subscript matrix (fst p) ;; subscript row (snd p).

(** The transformed grid point [(x_xform, y_xform)] of the point [p = (y, x)]. *)
Definition xform (matrix : list (list Z)) (p : Z * Z) : Z * Z :=
  match apply_transformation [snd p; fst p; 1] matrix with
  | Value (x_xform, y_xform, _) => (x_xform, y_xform)
  | Raise _ => (0, 0)
  end.

(** The line that the round of the matrix loop for the pair [p] writes, or
    the exception that ends it. *)
Definition matrix_step (matrix : list (list Z)) (num_frac_bits : Z) (p : Z * Z)
  : except string :=
  e <-? lookup matrix p ;;
  r <-? outcome (inject_Z e) 11 num_frac_bits ;;
  Value (fst r ++ snd r).

(** The encoder iterations of that round. *)
Definition matrix_step_cost (matrix : list (list Z)) (num_frac_bits : Z)
  (p : Z * Z) : nat :=
  match lookup matrix p with
  | Value e => cost (inject_Z e) num_frac_bits
  | Raise _ => O
  end.

(** The four lines that the round of the grid point [p] writes, or the
    exception that ends it. *)
Definition coordinate_step (matrix : list (list Z))
  (num_int_bits num_frac_bits : Z) (p : Z * Z)
  : except ((string * string) * (string * string)) :=
  t <-? apply_transformation [snd p; fst p; 1] matrix ;;
  rx <-? outcome (inject_Z (fst (fst t))) num_int_bits num_frac_bits ;;
  ry <-? outcome (inject_Z (snd (fst t))) num_int_bits num_frac_bits ;;
  Value (rx, ry).

(** The encoder iterations of that round. *)
Definition coordinate_step_cost (matrix : list (list Z))
  (num_int_bits num_frac_bits : Z) (p : Z * Z) : nat :=
  match apply_transformation [snd p; fst p; 1] matrix with
  | Value t =>
      (cost (inject_Z (fst (fst t))) num_frac_bits
       + match outcome (inject_Z (fst (fst t))) num_int_bits num_frac_bits with
         | Value _ => cost (inject_Z (snd (fst t))) num_frac_bits
         | Raise _ => 0
         end)%nat
  | Raise _ => O
  end.

(** What a round appends to the files. *)
Definition append_matrix_line (l : string) (fs : files) : files :=
  write Matrix_file (l ++ newline) fs.

Definition append_coordinate_lines (ls : (string * string) * (string * string))
  (fs : files) : files :=
  write Y_frac_file (snd (snd ls) ++ newline)
    (write Y_int_file (fst (snd ls) ++ newline)
       (write X_frac_file (snd (fst ls) ++ newline)
          (write X_int_file (fst (fst ls) ++ newline) fs))).

(** The results of the rounds of a loop up to the first one that raises,
    the exception of that round, and the encoder iterations up to there. *)
Fixpoint written {A L : Type} (step : A -> except L) (xs : list A) : list L :=
  match xs with
  | [] => []
  | x :: xs' =>
      match step x with
      | Value l => l :: written step xs'
      | Raise _ => []
      end
  end.

Fixpoint failure {A L : Type} (step : A -> except L) (xs : list A) : option exn :=
  match xs with
  | [] => None
  | x :: xs' =>
      match step x with
      | Value _ => failure step xs'
      | Raise e => Some e
      end
  end.

Fixpoint steps_cost {A L : Type} (step : A -> except L) (c : A -> nat) (xs : list A)
  : nat :=
  match xs with
  | [] => O
  | x :: xs' =>
      (c x + match step x with
             | Value _ => steps_cost step c xs'
             | Raise _ => 0
             end)%nat
  end.

(** The script finishes from [fs] with the files [fs'] after [n] loop
    iterations of the encoder. *)
Definition finishes (m : script unit) (fs fs' : files) (n : nat) : Prop :=
  forall fuel, m fs (n + fuel)%nat = Ok tt fs' fuel.

(** The script raises [e] from [fs], leaving the files [fs']. *)
Definition aborts (m : script unit) (fs fs' : files) (e : exn) (n : nat) : Prop :=
  forall fuel, m fs (n + fuel)%nat = Raised e fs'.

(** * Proofs *)

(** ** The fuel monad *)

Section Fuel.
Context {S : Type}.
Variables (cond : S -> bool) (body : S -> S).

Lemma while_loop_more (fuel : nat) :
  forall s s' rest extra,
    while_loop cond body s fuel = Some (s', rest) ->
    while_loop cond body s (fuel + extra) = Some (s', (rest + extra)%nat).
Proof.
  induction fuel as [|fuel IH]; intros s s' rest extra; simpl.
  - destruct (cond s) eqn:E; [discriminate|].
    intros H; injection H as <- <-.
    destruct extra; simpl; rewrite E; reflexivity.
  - destruct (cond s) eqn:E.
    + apply IH.
    + intros H; injection H as <- <-. reflexivity.
Qed.

Lemma while_loop_stop s fuel :
  cond s = false -> while_loop cond body s fuel = Some (s, fuel).
Proof. intros E; destruct fuel; simpl; rewrite E; reflexivity. Qed.

Lemma while_loop_step s fuel :
  cond s = true ->
  while_loop cond body s (Datatypes.S fuel) = while_loop cond body (body s) fuel.
Proof. intros E; simpl; rewrite E; reflexivity. Qed.

Lemma while_loop_le s fuel s' rest :
  while_loop cond body s fuel = Some (s', rest) -> (rest <= fuel)%nat.
Proof.
  revert s; induction fuel as [|fuel IH]; intros s; simpl.
  - destruct (cond s); [discriminate|]. intros H; injection H as _ <-. lia.
  - destruct (cond s).
    + intros H; apply IH in H. lia.
    + intros H; injection H as _ <-. lia.
Qed.
End Fuel.

Lemma uniform_ret {A : Type} (a : A) : uniform (ret a).
Proof. intros fuel a' rest extra H; injection H as <- <-; reflexivity. Qed.

Lemma uniform_bind {A B : Type} (m : M A) (k : A -> M B) :
  uniform m -> (forall a, uniform (k a)) -> uniform (bind m k).
Proof.
  intros Hm Hk fuel b rest extra; unfold bind.
  destruct (m fuel) as [[a r]|] eqn:E; [|discriminate].
  rewrite (Hm _ _ _ extra E). apply Hk.
Qed.

Lemma uniform_while {S : Type} (cond : S -> bool) (body : S -> S) (s : S) :
  uniform (while_loop cond body s).
Proof. intros fuel a rest extra; apply while_loop_more. Qed.

(** A loop that counts [bit_idx] upwards stops at the first index where the
    condition fails, after as many iterations as indices it passed. *)
Lemma while_count_up (cond : Z -> bool) (d : nat) :
  forall k, cond (k + Z.of_nat d) = false ->
  exists n : nat,
    (n <= d)%nat /\
    cond (k + Z.of_nat n) = false /\
    (forall i, k <= i < k + Z.of_nat n -> cond i = true) /\
    forall fuel, while_loop cond Z.succ k (n + fuel) = Some (k + Z.of_nat n, fuel).
Proof.
  induction d as [|d IH]; intros k Hd.
  - exists O. rewrite Z.add_0_r in *. repeat split; auto; try lia.
    intros fuel; apply while_loop_stop; assumption.
  - destruct (cond k) eqn:E.
    + destruct (IH (Z.succ k)) as (n & Hn & Hf & Ht & Hrun).
      { rewrite <- Hd; f_equal; lia. }
      exists (Datatypes.S n). repeat split.
      * lia.
      * rewrite <- Hf; f_equal; lia.
      * intros i Hi. destruct (Z.eq_dec i k) as [->|]; [assumption|].
        apply Ht; lia.
      * intros fuel. change (Datatypes.S n + fuel)%nat with (Datatypes.S (n + fuel)).
        rewrite while_loop_step by assumption. rewrite Hrun. do 2 f_equal. lia.
    + exists O. rewrite Z.add_0_r. repeat split; auto; try lia.
      intros fuel; apply while_loop_stop; assumption.
Qed.

(** ** Powers of two *)

Lemma pow2_pos k : (0 < pow2 k)%Q.
Proof. apply Qpower_0_lt; reflexivity. Qed.

Lemma pow2_add a b : (pow2 (a + b) == pow2 a * pow2 b)%Q.
Proof. apply Qpower_plus; discriminate. Qed.

Lemma pow2_succ k : (pow2 (k + 1) == pow2 k + pow2 k)%Q.
Proof. rewrite pow2_add. change (pow2 1) with (2#1)%Q. ring. Qed.

Lemma pow2_Z k : 0 <= k -> (pow2 k == inject_Z (2 ^ k))%Q.
Proof. intros H. symmetry. apply (Zpower_Qpower 2 k H). Qed.

Lemma pow2_0 : (pow2 0 == 1)%Q.
Proof. reflexivity. Qed.

Lemma pow2_gt_lin k : 0 <= k -> (inject_Z k < pow2 k)%Q.
Proof.
  intros H. rewrite pow2_Z by assumption. rewrite <- Zlt_Qlt.
  apply Z.pow_gt_lin_r; lia.
Qed.

(** ** Comparisons *)

Lemma Qlt_bool_iff a b : Qlt_bool a b = true <-> (a < b)%Q.
Proof.
  unfold Qlt_bool. rewrite negb_true_iff. split.
  - intros H. apply Qnot_le_lt. intros Hle. apply Qle_bool_iff in Hle. congruence.
  - intros H. destruct (Qle_bool b a) eqn:E; [|reflexivity].
    apply Qle_bool_iff in E. exfalso. exact (Qlt_not_le _ _ H E).
Qed.

Lemma Qlt_bool_false a b : Qlt_bool a b = false <-> (b <= a)%Q.
Proof.
  unfold Qlt_bool. rewrite negb_false_iff. apply Qle_bool_iff.
Qed.

Lemma Qle_bool_false a b : Qle_bool a b = false <-> (b < a)%Q.
Proof.
  rewrite <- Qlt_bool_iff. unfold Qlt_bool. rewrite negb_true_iff. reflexivity.
Qed.

(** An integer below [number < m + 1] and at least [m] is its floor. *)
Lemma Qfloor_unique (number : Q) (m : Z) :
  (inject_Z m <= number)%Q -> (number < inject_Z (m + 1))%Q -> Qfloor number = m.
Proof.
  intros Hlo Hhi.
  assert (H1 : m <= Qfloor number).
  { rewrite <- (Qfloor_Z m). apply Qfloor_resp_le; assumption. }
  assert (H2 : Qfloor number < m + 1).
  { rewrite Zlt_Qlt. eapply Qle_lt_trans; [apply Qfloor_le | assumption]. }
  lia.
Qed.

(** ** Strings *)

Lemma append_assoc (s t u : string) : (s ++ t) ++ u = s ++ (t ++ u).
Proof. induction s as [|c s IH]; simpl; [reflexivity | rewrite IH; reflexivity]. Qed.

Lemma append_nil_r (s : string) : s ++ "" = s.
Proof. induction s as [|c s IH]; simpl; [reflexivity | rewrite IH; reflexivity]. Qed.

Lemma len_append (s t : string) : len (s ++ t) = len s + len t.
Proof.
  unfold len. induction s as [|c s IH]; simpl String.length; [reflexivity | lia].
Qed.

Lemma len_nonneg (s : string) : 0 <= len s.
Proof. unfold len; lia. Qed.

Lemma len_String c s : len (String c s) = len s + 1.
Proof. unfold len; simpl String.length; lia. Qed.

Lemma bit_of_range c : 0 <= bit_of c <= 1.
Proof. unfold bit_of; destruct (Ascii.eqb c "1"); lia. Qed.

Lemma unsigned_bounds (s : string) : 0 <= unsigned s < 2 ^ len s.
Proof.
  induction s as [|c s IH]; simpl unsigned.
  - change (len "") with 0. simpl. lia.
  - rewrite len_String, Z.pow_add_r by (try apply len_nonneg; lia).
    change (2 ^ 1) with 2. pose proof (bit_of_range c). nia.
Qed.

Lemma unsigned_append (s t : string) :
  unsigned (s ++ t) = unsigned s * 2 ^ len t + unsigned t.
Proof.
  induction s as [|c s IH]; simpl.
  - reflexivity.
  - rewrite IH, len_append, Z.pow_add_r by apply len_nonneg. ring.
Qed.

Lemma unsigned_one s : unsigned (String "1" s) = 2 ^ len s + unsigned s.
Proof. cbn [unsigned]. change (bit_of "1") with 1. lia. Qed.

Lemma unsigned_zero s : unsigned (String "0" s) = unsigned s.
Proof. cbn [unsigned]. change (bit_of "0") with 0. lia. Qed.

Lemma len_str_repeat c n : len (str_repeat c n) = Z.max 0 n.
Proof.
  unfold str_repeat, len.
  assert (H : forall m, String.length (string_of_list_ascii (repeat c m)) = m).
  { induction m; simpl; congruence. }
  rewrite H. lia.
Qed.

Lemma unsigned_repeat_nat c m :
  unsigned (string_of_list_ascii (repeat c m)) = bit_of c * (2 ^ Z.of_nat m - 1).
Proof.
  induction m as [|m IH].
  - simpl. lia.
  - change (repeat c (Datatypes.S m)) with (c :: repeat c m).
    simpl string_of_list_ascii. simpl unsigned. rewrite IH.
    pose proof (len_str_repeat c (Z.of_nat m)) as L. unfold str_repeat in L.
    rewrite Nat2Z.id in L. rewrite L.
    rewrite Z.max_r by lia. rewrite Nat2Z.inj_succ, Z.pow_succ_r by lia. ring.
Qed.

Lemma unsigned_str_repeat c n :
  unsigned (str_repeat c n) = bit_of c * (2 ^ Z.max 0 n - 1).
Proof.
  unfold str_repeat. rewrite unsigned_repeat_nat. do 3 f_equal. lia.
Qed.

Lemma str_drop_split (n : nat) :
  forall s, (n <= String.length s)%nat ->
  exists hi, s = hi ++ str_drop n s /\ String.length hi = n.
Proof.
  induction n as [|n IH]; intros s H.
  - exists "". split; reflexivity.
  - destruct s as [|c s]; simpl in H; [lia|].
    destruct (IH s) as (hi & E & L); [lia|].
    exists (String c hi). simpl. split; [rewrite <- E; reflexivity | lia].
Qed.

(** ** The exact greedy accumulation *)

Section Greedy.
Variable number : Q.

Lemma greedy_len n : forall j a, len (fst (greedy number n j a)) = Z.of_nat n.
Proof.
  induction n as [|n IH]; intros j a; [reflexivity|].
  simpl greedy. destruct (Qle_bool _ _).
  - specialize (IH (j - 1) (a + pow2 j)%Q).
    destruct (greedy number n (j - 1) (a + pow2 j)) as [t a']. simpl in *.
    rewrite len_String. lia.
  - specialize (IH (j - 1) a).
    destruct (greedy number n (j - 1) a) as [t a']. simpl in *.
    rewrite len_String. lia.
Qed.

(** The accumulator brackets [number] ever more tightly, and the emitted
    bits are the binary digits of what was added to it. *)
Lemma greedy_value n :
  forall j a,
    (a <= number)%Q -> (number < a + pow2 (j + 1))%Q ->
    let g := greedy number n j a in
    (snd g == a + inject_Z (unsigned (fst g)) * pow2 (j + 1 - Z.of_nat n))%Q /\
    (snd g <= number)%Q /\
    (number < snd g + pow2 (j + 1 - Z.of_nat n))%Q.
Proof.
  induction n as [|n IH]; intros j a Hlo Hhi.
  - simpl. rewrite Z.sub_0_r. repeat split; try assumption.
    change (inject_Z 0) with 0%Q. ring.
  - cbv zeta. simpl greedy.
    replace (j + 1 - Z.of_nat (Datatypes.S n)) with (j - 1 + 1 - Z.of_nat n) by lia.
    assert (Hn : (pow2 (j + 1) == pow2 j + pow2 j)%Q) by apply pow2_succ.
    assert (Hj : (pow2 j == pow2 (Z.of_nat n) * pow2 (j - 1 + 1 - Z.of_nat n))%Q).
    { rewrite <- pow2_add. replace (Z.of_nat n + (j - 1 + 1 - Z.of_nat n)) with j by lia.
      reflexivity. }
    destruct (Qle_bool (a + pow2 j) number) eqn:E.
    + apply Qle_bool_iff in E.
      assert (Hhi' : (number < a + pow2 j + pow2 (j - 1 + 1))%Q).
      { replace (j - 1 + 1) with j by lia. rewrite <- Qplus_assoc, <- Hn. assumption. }
      specialize (IH (j - 1) (a + pow2 j)%Q E Hhi').
      pose proof (greedy_len n (j - 1) (a + pow2 j)%Q) as L.
      destruct (greedy number n (j - 1) (a + pow2 j)) as [t a']. cbn [fst snd] in *.
      destruct IH as (Hv & Hl & Hu). repeat split; try assumption.
      rewrite Hv, unsigned_one, L.
      rewrite inject_Z_plus, <- pow2_Z by lia. rewrite Hj at 1. ring.
    + apply Qle_bool_false in E.
      assert (Hhi' : (number < a + pow2 (j - 1 + 1))%Q).
      { replace (j - 1 + 1) with j by lia. assumption. }
      specialize (IH (j - 1) a Hlo Hhi').
      destruct (greedy number n (j - 1) a) as [t a']. cbn [fst snd] in *.
      destruct IH as (Hv & Hl & Hu). rewrite unsigned_zero.
      repeat split; assumption.
Qed.
End Greedy.

(** ** The magnitude search *)

Lemma magnitude_search_run (number : Q) :
  exists k,
    start_index number k /\
    forall fuel,
      magnitude_search (Qlt_bool number 0) number
        (int_rounds (Qlt_bool number 0) k + fuel)%nat = Some (k, fuel).
Proof.
  unfold start_index, magnitude_search, int_rounds.
  destruct (Qlt_bool number 0) eqn:Hneg.
  - set (d := Z.to_nat (Z.max 0 (- Qfloor number))).
    destruct (while_count_up (fun b => Qlt_bool number (- pow2 b)) d 0)
      as (n & _ & Hstop & Hgo & Hrun).
    { apply Qlt_bool_false. simpl.
      assert (H : (inject_Z (Z.of_nat d) < pow2 (Z.of_nat d))%Q)
        by (apply pow2_gt_lin; lia).
      apply Qle_trans with (inject_Z (Qfloor number)); [|apply Qfloor_le].
      apply Qle_trans with (inject_Z (- Z.of_nat d)).
      - rewrite inject_Z_opp. apply Qopp_le_compat, Qlt_le_weak, H.
      - rewrite <- Zle_Qle. lia. }
    exists (Z.of_nat n). simpl in *. repeat split.
    + lia.
    + apply Qlt_bool_false; assumption.
    + intros j Hj. apply Qlt_bool_iff, Hgo. lia.
    + intros fuel. rewrite Nat2Z.id. apply Hrun.
  - set (d := Z.to_nat (Z.max 0 (Qfloor number + 1))).
    destruct (while_count_up (fun b => Qle_bool (pow2 b) number) d 0)
      as (n & _ & Hstop & Hgo & Hrun).
    { apply Qle_bool_false. simpl.
      assert (H : (inject_Z (Z.of_nat d) < pow2 (Z.of_nat d))%Q)
        by (apply pow2_gt_lin; lia).
      apply Qlt_trans with (inject_Z (Qfloor number + 1)); [apply Qlt_floor|].
      apply Qle_lt_trans with (inject_Z (Z.of_nat d)); [|exact H].
      rewrite <- Zle_Qle. lia. }
    exists (Z.of_nat n - 1). simpl in *. repeat split.
    + lia.
    + apply Qle_bool_false. replace (Z.of_nat n - 1 + 1) with (Z.of_nat n) by lia.
      assumption.
    + intros j Hj. apply Qle_bool_iff, Hgo. lia.
    + intros fuel. replace (Z.of_nat n - 1 + 1) with (Z.of_nat n) by lia.
      rewrite Nat2Z.id. unfold bind. rewrite Hrun. reflexivity.
Qed.

(** The starting index is determined by [number]. *)
Lemma start_index_unique (number : Q) (k k' : Z) :
  start_index number k -> start_index number k' -> k = k'.
Proof.
  unfold start_index. destruct (Qlt_bool number 0).
  - intros (H0 & Hle & Hlt) (H0' & Hle' & Hlt').
    destruct (Z.lt_trichotomy k k') as [H|[H|H]]; [|assumption|]; exfalso.
    + apply (Qlt_not_le _ _ (Hlt' k (conj H0 H))). assumption.
    + apply (Qlt_not_le _ _ (Hlt k' (conj H0' H))). assumption.
  - intros (H0 & Hlt & Hle) (H0' & Hlt' & Hle').
    destruct (Z.lt_trichotomy k k') as [H|[H|H]]; [|assumption|]; exfalso.
    + apply (Qlt_not_le _ _ Hlt). apply Hle'. lia.
    + apply (Qlt_not_le _ _ Hlt'). apply Hle. lia.
Qed.

(** ** What the raw strings denote *)

Lemma after_int_nonneg (number : Q) (k : Z) :
  Qlt_bool number 0 = false -> start_index number k ->
  len (raw_int number k) = k + 1 /\
  unsigned (raw_int number k) = Qfloor number /\
  (snd (after_int number k) == inject_Z (Qfloor number))%Q.
Proof.
  intros Hneg Hk. unfold start_index in Hk. unfold raw_int, after_int.
  rewrite Hneg in *. cbv zeta. cbn [fst snd]. destruct Hk as (Hk1 & Hlt & _).
  apply Qlt_bool_false in Hneg.
  assert (Hhi : (number < 0 + pow2 (k + 1))%Q) by (rewrite Qplus_0_l; assumption).
  pose proof (greedy_value number (Z.to_nat (k + 1)) k 0%Q Hneg Hhi) as Hg.
  pose proof (greedy_len number (Z.to_nat (k + 1)) k 0%Q) as Hl.
  cbv zeta in Hg.
  destruct (greedy number (Z.to_nat (k + 1)) k 0) as [t a]. cbn [fst snd] in *.
  replace (k + 1 - Z.of_nat (Z.to_nat (k + 1))) with 0 in Hg by lia.
  destruct Hg as (Hv & Hlo & Hup).
  assert (Ha : (a == inject_Z (unsigned t))%Q).
  { rewrite Hv, pow2_0. ring. }
  assert (Hfl : Qfloor number = unsigned t).
  { apply Qfloor_unique.
    - rewrite <- Ha. assumption.
    - rewrite inject_Z_plus, <- Ha. assumption. }
  repeat split.
  - rewrite Hl. lia.
  - congruence.
  - rewrite Hfl. assumption.
Qed.

Lemma after_int_neg (number : Q) (k : Z) :
  Qlt_bool number 0 = true -> start_index number k ->
  (exists t, raw_int number k = String "1" t /\ len t = k /\
             unsigned t = Qfloor number + 2 ^ k) /\
  (snd (after_int number k) == inject_Z (Qfloor number))%Q.
Proof.
  intros Hneg Hk. unfold start_index in Hk. unfold raw_int, after_int.
  rewrite Hneg in *. cbv zeta. cbn [fst snd]. destruct Hk as (Hk0 & Hlo & _).
  apply Qlt_bool_iff in Hneg.
  assert (Hhi : (number < - pow2 k + pow2 (k - 1 + 1))%Q).
  { replace (k - 1 + 1) with k by lia.
    setoid_replace (- pow2 k + pow2 k)%Q with 0%Q by ring. assumption. }
  pose proof (greedy_value number (Z.to_nat k) (k - 1) (- pow2 k)%Q Hlo Hhi) as Hg.
  pose proof (greedy_len number (Z.to_nat k) (k - 1) (- pow2 k)%Q) as Hl.
  cbv zeta in Hg.
  destruct (greedy number (Z.to_nat k) (k - 1) (- pow2 k)) as [t a].
  cbn [fst snd] in *.
  replace (k - 1 + 1 - Z.of_nat (Z.to_nat k)) with 0 in Hg by lia.
  destruct Hg as (Hv & Hlow & Hup).
  assert (Ha : (a == inject_Z (unsigned t - 2 ^ k))%Q).
  { rewrite Hv, pow2_0. unfold Zminus. rewrite inject_Z_plus, inject_Z_opp.
    rewrite pow2_Z by assumption. ring. }
  assert (Hfl : Qfloor number = unsigned t - 2 ^ k).
  { apply Qfloor_unique.
    - rewrite <- Ha. assumption.
    - rewrite inject_Z_plus, <- Ha. assumption. }
  split.
  - exists t. change ("1" ++ t) with (String "1" t). repeat split.
    + rewrite Hl. lia.
    + lia.
  - rewrite Hfl. assumption.
Qed.

Lemma after_int_floor (number : Q) (k : Z) :
  start_index number k ->
  (snd (after_int number k) == inject_Z (Qfloor number))%Q.
Proof.
  intros Hk. destruct (Qlt_bool number 0) eqn:Hneg.
  - apply after_int_neg; assumption.
  - apply after_int_nonneg; assumption.
Qed.

Lemma frac_str_value (number : Q) (k frac_bits : Z) :
  0 <= frac_bits -> start_index number k ->
  len (frac_str number k frac_bits) = frac_bits /\
  unsigned (frac_str number k frac_bits)
  = Qfloor (number * inject_Z (2 ^ frac_bits)) - Qfloor number * 2 ^ frac_bits.
Proof.
  intros Hfb Hk. unfold frac_str.
  pose proof (after_int_floor number k Hk) as Ha.
  set (a := snd (after_int number k)) in *.
  assert (Hlo : (a <= number)%Q) by (rewrite Ha; apply Qfloor_le).
  assert (Hhi : (number < a + pow2 (-1 + 1))%Q).
  { rewrite Ha. change (pow2 (-1 + 1)) with (inject_Z 1).
    rewrite <- inject_Z_plus. apply Qlt_floor. }
  pose proof (greedy_value number (Z.to_nat frac_bits) (-1) a Hlo Hhi) as Hg.
  pose proof (greedy_len number (Z.to_nat frac_bits) (-1) a) as Hl.
  cbv zeta in Hg.
  destruct (greedy number (Z.to_nat frac_bits) (-1) a) as [t a']. cbn [fst snd] in *.
  replace (-1 + 1 - Z.of_nat (Z.to_nat frac_bits)) with (- frac_bits) in Hg by lia.
  destruct Hg as (Hv & Hlow & Hup).
  split; [lia|].
  set (F := Qfloor number) in *. set (P := inject_Z (2 ^ frac_bits)).
  assert (HP : (0 < P)%Q).
  { unfold P. rewrite <- pow2_Z by assumption. apply pow2_pos. }
  assert (Hinv : (pow2 (- frac_bits) * P == 1)%Q).
  { unfold P. rewrite <- pow2_Z by assumption. rewrite <- pow2_add.
    replace (- frac_bits + frac_bits) with 0 by lia. reflexivity. }
  assert (Hscaled : (a' * P == inject_Z (F * 2 ^ frac_bits + unsigned t))%Q).
  { rewrite Hv, Ha, inject_Z_plus, inject_Z_mult. fold P.
    setoid_replace ((inject_Z F + inject_Z (unsigned t) * pow2 (- frac_bits)) * P)%Q
      with (inject_Z F * P + inject_Z (unsigned t) * (pow2 (- frac_bits) * P))%Q by ring.
    rewrite Hinv. ring. }
  assert (Hfl : Qfloor (number * P) = F * 2 ^ frac_bits + unsigned t).
  { apply Qfloor_unique.
    - rewrite <- Hscaled. apply Qmult_le_compat_r; [assumption | apply Qlt_le_weak, HP].
    - rewrite inject_Z_plus, <- Hscaled.
      setoid_replace (a' * P + inject_Z 1)%Q with ((a' + pow2 (- frac_bits)) * P)%Q.
      + apply Qmult_lt_compat_r; assumption.
      + setoid_replace ((a' + pow2 (- frac_bits)) * P)%Q
          with (a' * P + pow2 (- frac_bits) * P)%Q by ring.
        rewrite Hinv. reflexivity. }
  rewrite Hfl. lia.
Qed.

(** ** The width adjustment *)

Lemma width_adjust_short negative int_bits s :
  len s < int_bits ->
  width_adjust negative int_bits s
  = str_repeat (if negative then "1" else "0")%char (int_bits - len s) ++ s.
Proof.
  intros H. unfold width_adjust.
  apply Z.ltb_lt in H as H1. rewrite H1.
  assert (H2 : (len s >? int_bits) = false) by (rewrite Z.gtb_ltb; apply Z.ltb_ge; lia).
  rewrite H2. destruct negative; reflexivity.
Qed.

Lemma width_adjust_exact negative int_bits s :
  len s = int_bits -> width_adjust negative int_bits s = s.
Proof.
  intros H. unfold width_adjust. rewrite H, Z.ltb_irrefl.
  rewrite Z.gtb_ltb, Z.ltb_irrefl. reflexivity.
Qed.

Lemma width_adjust_long negative int_bits s :
  0 <= int_bits < len s ->
  exists hi,
    s = hi ++ width_adjust negative int_bits s /\
    len hi = len s - int_bits /\
    len (width_adjust negative int_bits s) = int_bits.
Proof.
  intros H. unfold width_adjust.
  assert (H1 : (len s <? int_bits) = false) by (apply Z.ltb_ge; lia).
  assert (H2 : (len s >? int_bits) = true) by (apply Z.gtb_lt; lia).
  rewrite H1, H2. unfold slice_from.
  assert (H3 : (len s - int_bits <? 0) = false) by (apply Z.ltb_ge; lia).
  rewrite H3.
  destruct (str_drop_split (Z.to_nat (len s - int_bits)) s) as (hi & E & L).
  { unfold len in *. lia. }
  assert (Lhi : len hi = len s - int_bits) by (unfold len in *; lia).
  exists hi. repeat split; try assumption.
  pose proof (f_equal len E) as EL. rewrite len_append in EL. lia.
Qed.

Lemma width_adjust_len negative int_bits s :
  0 <= int_bits -> len (width_adjust negative int_bits s) = int_bits.
Proof.
  intros H. destruct (Z.lt_trichotomy (len s) int_bits) as [Hc|[Hc|Hc]].
  - rewrite width_adjust_short by assumption.
    rewrite len_append, len_str_repeat. lia.
  - rewrite width_adjust_exact; assumption.
  - destruct (width_adjust_long negative int_bits s) as (hi & _ & _ & L); [lia|].
    assumption.
Qed.

(** A number in [[0, 2^n)] that differs from [x] by a multiple of [2^n] is
    [x mod 2^n]. *)
Lemma mod_pow2_intro (n v x m : Z) :
  0 <= v < 2 ^ n -> v = x + m * 2 ^ n -> v = x mod 2 ^ n.
Proof.
  intros Hv E. apply Z.mod_unique with (q := - m); [left; assumption | lia].
Qed.

(** The adjusted integer part, read as an unsigned number, is the floor of
    [number] up to a multiple of [2^int_bits]. *)
Lemma width_adjust_unsigned (number : Q) (int_bits k : Z) :
  0 <= int_bits -> start_index number k ->
  unsigned (width_adjust (Qlt_bool number 0) int_bits (raw_int number k))
  = Qfloor number mod 2 ^ int_bits.
Proof.
  intros Hib Hk.
  pose proof (width_adjust_len (Qlt_bool number 0) int_bits (raw_int number k) Hib) as L.
  pose proof (unsigned_bounds
                (width_adjust (Qlt_bool number 0) int_bits (raw_int number k))) as B.
  rewrite L in B.
  destruct (Qlt_bool number 0) eqn:Hneg.
  - destruct (after_int_neg number k Hneg Hk) as ((t & Eraw & Lt & Ut) & _).
    assert (Hk0 : 0 <= k) by (rewrite <- Lt; apply len_nonneg).
    assert (Lraw : len (raw_int number k) = k + 1) by (rewrite Eraw, len_String; lia).
    assert (Uraw : unsigned (raw_int number k) = Qfloor number + 2 ^ (k + 1)).
    { rewrite Eraw, unsigned_one, Ut, Lt, Z.pow_add_r by lia. change (2 ^ 1) with 2. lia. }
    destruct (Z.lt_trichotomy (len (raw_int number k)) int_bits) as [Hc|[Hc|Hc]].
    + rewrite width_adjust_short in * by assumption.
      apply mod_pow2_intro with (m := 1); [assumption|].
      rewrite unsigned_append, unsigned_str_repeat, Uraw, Lraw.
      change (bit_of "1") with 1. rewrite Z.max_r by lia.
      replace int_bits with ((int_bits - (k + 1)) + (k + 1)) at 2 by lia.
      rewrite (Z.pow_add_r 2 (int_bits - (k + 1)) (k + 1)) by lia. ring.
    + rewrite width_adjust_exact in * by assumption.
      apply mod_pow2_intro with (m := 1); [assumption|].
      rewrite Uraw. rewrite <- Hc, Lraw. ring.
    + destruct (width_adjust_long true int_bits (raw_int number k))
        as (hi & E & Lhi & _); [lia|].
      apply mod_pow2_intro
        with (m := 2 ^ (k + 1 - int_bits) - unsigned hi); [assumption|].
      pose proof (f_equal unsigned E) as EU.
      rewrite unsigned_append, L, Uraw in EU.
      replace (2 ^ (k + 1)) with (2 ^ (k + 1 - int_bits) * 2 ^ int_bits) in EU.
      * lia.
      * rewrite <- Z.pow_add_r by lia. f_equal. lia.
  - destruct (after_int_nonneg number k Hneg Hk) as (Lraw & Uraw & _).
    destruct (Z.lt_trichotomy (len (raw_int number k)) int_bits) as [Hc|[Hc|Hc]].
    + rewrite width_adjust_short in * by assumption.
      apply mod_pow2_intro with (m := 0); [assumption|].
      rewrite unsigned_append, unsigned_str_repeat, Uraw.
      change (bit_of "0") with 0. ring.
    + rewrite width_adjust_exact in * by assumption.
      apply mod_pow2_intro with (m := 0); [assumption|]. lia.
    + destruct (width_adjust_long false int_bits (raw_int number k))
        as (hi & E & Lhi & _); [lia|].
      apply mod_pow2_intro with (m := - unsigned hi); [assumption|].
      pose proof (f_equal unsigned E) as EU.
      rewrite unsigned_append, L, Uraw in EU. lia.
Qed.

(** Two's-complement reading from the unsigned reading. *)
Lemma twos_complement_of_unsigned (s : string) (n t : Z) :
  len s = n -> 1 <= n ->
  - 2 ^ (n - 1) <= t < 2 ^ (n - 1) ->
  unsigned s = t mod 2 ^ n ->
  twos_complement s = t.
Proof.
  intros L Hn Ht U. destruct s as [|c s'].
  - change (len "") with 0 in L. lia.
  - rewrite len_String in L. cbn [unsigned] in U. cbn [twos_complement].
    assert (Ls : len s' = n - 1) by lia. rewrite Ls in *.
    pose proof (unsigned_bounds s') as B. rewrite Ls in B.
    pose proof (bit_of_range c) as Hb.
    assert (Hp : 2 ^ n = 2 * 2 ^ (n - 1)).
    { replace n with (n - 1 + 1) at 1 by lia. rewrite Z.pow_add_r by lia.
      change (2 ^ 1) with 2. ring. }
    assert (Hc : bit_of c = 0 \/ bit_of c = 1) by lia.
    destruct (Z_lt_le_dec t 0) as [Hneg|Hpos].
    + assert (Hm : t mod 2 ^ n = t + 2 ^ n).
      { symmetry. apply Z.mod_unique with (q := -1); [left; lia | lia]. }
      rewrite Hm in U. destruct Hc as [Hc|Hc]; rewrite Hc in *; lia.
    + rewrite Z.mod_small in U by lia.
      destruct Hc as [Hc|Hc]; rewrite Hc in *; lia.
Qed.




Lemma start_index_closed (number : Q) : start_index number (start_index_of number).
Proof.
  unfold start_index, start_index_of.
  pose proof (Qfloor_le number) as Hfl. pose proof (Qlt_floor number) as Hfu.
  destruct (Qlt_bool number 0) eqn:Hneg.
  - apply Qlt_bool_iff in Hneg.
    assert (HF : Qfloor number <= -1).
    { assert (H : Qfloor number < 0).
      { rewrite Zlt_Qlt. eapply Qle_lt_trans; eassumption. }
      lia. }
    set (F := Qfloor number) in *. set (k := Z.log2_up (- F)).
    assert (Hk0 : 0 <= k) by apply Z.log2_up_nonneg.
    assert (Hup : - F <= 2 ^ k).
    { destruct (Z.eq_dec (- F) 1) as [E|E].
      - unfold k. rewrite E. change (Z.log2_up 1) with 0. lia.
      - apply Z.log2_up_spec. lia. }
    split; [assumption|]. split.
    + rewrite pow2_Z, <- inject_Z_opp by assumption.
      apply Qle_trans with (inject_Z F); [|assumption].
      rewrite <- Zle_Qle. lia.
    + intros j Hj.
      assert (Hlow : 2 ^ j < - F).
      { assert (H1 : 1 < - F).
        { destruct (Z.eq_dec (- F) 1) as [E|E]; [|lia].
          unfold k in Hj. rewrite E in Hj. change (Z.log2_up 1) with 0 in Hj. lia. }
        pose proof (Z.log2_up_spec (- F) H1) as (Hs & _). fold k in Hs.
        apply Z.le_lt_trans with (2 ^ Z.pred k); [|assumption].
        apply Z.pow_le_mono_r; lia. }
      rewrite pow2_Z, <- inject_Z_opp by lia.
      apply Qlt_le_trans with (inject_Z (F + 1)); [assumption|].
      rewrite <- Zle_Qle. lia.
  - apply Qlt_bool_false in Hneg.
    destruct (Qlt_bool number 1) eqn:H1.
    + apply Qlt_bool_iff in H1. split; [lia|]. split.
      * exact H1.
      * intros j Hj. lia.
    + apply Qlt_bool_false in H1.
      assert (HF : 1 <= Qfloor number).
      { rewrite <- (Qfloor_Z 1). apply Qfloor_resp_le. assumption. }
      set (F := Qfloor number) in *. set (k := Z.log2 F).
      assert (Hk0 : 0 <= k) by apply Z.log2_nonneg.
      pose proof (Z.log2_spec F ltac:(lia)) as (Hlo & Hhi). fold k in Hlo, Hhi.
      split; [lia|]. split.
      * rewrite pow2_Z by lia.
        apply Qlt_le_trans with (inject_Z (F + 1)); [assumption|].
        rewrite <- Zle_Qle. rewrite <- Z.add_1_r in Hhi. lia.
      * intros j Hj. rewrite pow2_Z by lia.
        apply Qle_trans with (inject_Z F); [|assumption].
        rewrite <- Zle_Qle. apply Z.le_trans with (2 ^ k); [|assumption].
        apply Z.pow_le_mono_r; lia.
Qed.

(** ** Bit strings *)

Lemma bits_only_append (s t : string) :
  bits_only (s ++ t) = bits_only s && bits_only t.
Proof.
  induction s as [|c s IH]; simpl; [reflexivity|].
  rewrite IH, andb_assoc. reflexivity.
Qed.

Lemma bits_only_greedy (number : Q) (n : nat) :
  forall j a, bits_only (fst (greedy number n j a)) = true.
Proof.
  induction n as [|n IH]; intros j a; [reflexivity|].
  simpl greedy. destruct (Qle_bool _ _).
  - specialize (IH (j - 1) (a + pow2 j)%Q).
    destruct (greedy number n (j - 1) (a + pow2 j)) as [t a']. exact IH.
  - specialize (IH (j - 1) a).
    destruct (greedy number n (j - 1) a) as [t a']. exact IH.
Qed.

Lemma bits_only_str_repeat (c : ascii) (n : Z) :
  c = "0"%char \/ c = "1"%char -> bits_only (str_repeat c n) = true.
Proof.
  intros Hc. unfold str_repeat. induction (Z.to_nat n) as [|m IH]; [reflexivity|].
  simpl. rewrite IH. destruct Hc as [-> | ->]; reflexivity.
Qed.

Lemma bits_only_str_drop (n : nat) :
  forall s, bits_only s = true -> bits_only (str_drop n s) = true.
Proof.
  induction n as [|n IH]; intros s H; [exact H|].
  destruct s as [|c s]; [reflexivity|]. simpl in *.
  apply andb_true_iff in H. apply IH, H.
Qed.

Lemma bits_only_raw_int (number : Q) (k : Z) : bits_only (raw_int number k) = true.
Proof.
  unfold raw_int, after_int. destruct (Qlt_bool number 0); cbv zeta; cbn [fst].
  - rewrite bits_only_append, bits_only_greedy. reflexivity.
  - apply bits_only_greedy.
Qed.

Lemma bits_only_width_adjust negative int_bits s :
  bits_only s = true -> bits_only (width_adjust negative int_bits s) = true.
Proof.
  intros H. unfold width_adjust, slice_from.
  assert (Hp : forall c n, c = "0"%char \/ c = "1"%char ->
                           bits_only (str_repeat c n ++ s) = true).
  { intros c n Hc. rewrite bits_only_append, bits_only_str_repeat, H by assumption.
    reflexivity. }
  destruct (len s <? int_bits); destruct negative; destruct (len s >? int_bits);
    try destruct (len s - int_bits <? 0);
    repeat apply bits_only_str_drop; auto.
Qed.





(** ** The value that exact arithmetic encodes *)

Lemma exact_encoding_decode (number : Q) (int_bits frac_bits : Z) :
  1 <= int_bits -> 0 <= frac_bits ->
  (inject_Z (- 2 ^ (int_bits - 1)) <= number)%Q ->
  (number < inject_Z (2 ^ (int_bits - 1)))%Q ->
  twos_complement (fst (exact_encoding number int_bits frac_bits)
                   ++ snd (exact_encoding number int_bits frac_bits))
  = Qfloor (number * inject_Z (2 ^ frac_bits)).
Proof.
  intros Hib Hfb Hlo Hhi. unfold exact_encoding. cbv zeta. cbn [fst snd].
  set (k := start_index_of number).
  pose proof (start_index_closed number) as Hk. fold k in Hk.
  destruct (frac_str_value number k frac_bits Hfb Hk) as (Lf & Uf).
  pose proof (width_adjust_unsigned number int_bits k ltac:(lia) Hk) as Ui.
  pose proof (width_adjust_len (Qlt_bool number 0) int_bits (raw_int number k)
                ltac:(lia)) as Li.
  set (i := width_adjust (Qlt_bool number 0) int_bits (raw_int number k)) in *.
  set (f := frac_str number k frac_bits) in *.
  set (F := Qfloor number) in *.
  set (G := Qfloor (number * inject_Z (2 ^ frac_bits))) in *.
  assert (HF : - 2 ^ (int_bits - 1) <= F < 2 ^ (int_bits - 1)).
  { split.
    - rewrite <- (Qfloor_Z (- 2 ^ (int_bits - 1))). apply Qfloor_resp_le. assumption.
    - rewrite Zlt_Qlt. eapply Qle_lt_trans; [apply Qfloor_le | assumption]. }
  pose proof (unsigned_bounds f) as Bf. rewrite Lf in Bf.
  pose proof (unsigned_bounds i) as Bi. rewrite Li in Bi.
  assert (Hp : 2 ^ (int_bits + frac_bits - 1) = 2 ^ (int_bits - 1) * 2 ^ frac_bits).
  { rewrite <- Z.pow_add_r by lia. f_equal. lia. }
  assert (Hq : 2 ^ (int_bits + frac_bits) = 2 ^ int_bits * 2 ^ frac_bits).
  { apply Z.pow_add_r; lia. }
  assert (Hpos : 0 < 2 ^ frac_bits) by (apply Z.pow_pos_nonneg; lia).
  apply twos_complement_of_unsigned with (n := int_bits + frac_bits).
  - rewrite len_append. lia.
  - lia.
  - rewrite Hp. nia.
  - rewrite unsigned_append, Lf.
    apply mod_pow2_intro with (m := - (F / 2 ^ int_bits)).
    + rewrite Hq. nia.
    + rewrite Ui, Hq, Z.mod_eq by lia. rewrite Uf. ring.
Qed.

(** ** Rounding to a double *)

Lemma pow2_sub_Z (p r : Z) :
  0 <= p -> 0 <= r -> (pow2 (p - r) * inject_Z (2 ^ r) == inject_Z (2 ^ p))%Q.
Proof.
  intros Hp Hr. rewrite <- (pow2_Z r), <- (pow2_Z p) by assumption.
  rewrite <- pow2_add. replace (p - r + r) with p by lia. reflexivity.
Qed.

Lemma inject_Z_pow2_pos (r : Z) : 0 <= r -> (0 < inject_Z (2 ^ r))%Q.
Proof. intros H. rewrite <- pow2_Z by assumption. apply pow2_pos. Qed.

Lemma Qabs_frac_lt (n : Z) (d : positive) (P R : Z) :
  Z.abs n * R < P * Zpos d -> (Qabs (n # d) * inject_Z R < inject_Z P)%Q.
Proof. intros H. unfold Qlt. simpl. lia. Qed.

Lemma Qabs_frac_le (n : Z) (d : positive) (P R : Z) :
  P * Zpos d <= Z.abs n * R -> (inject_Z P <= Qabs (n # d) * inject_Z R)%Q.
Proof. intros H. unfold Qle. simpl. lia. Qed.

(** [Qlog2] is the exponent of the binade of [x]. *)
Lemma Qlog2_spec (x : Q) :
  ~ (x == 0)%Q ->
  (pow2 (Qlog2 x) <= Qabs x)%Q /\ (Qabs x < pow2 (Qlog2 x + 1))%Q.
Proof.
  intros Hx. destruct x as [n d].
  assert (Hn : 0 < Z.abs n).
  { assert (n <> 0); [|lia]. intros ->. apply Hx. reflexivity. }
  unfold Qlog2. cbn [Qnum Qden].
  set (la := Z.log2 (Z.abs n)). set (ld := Z.log2 (Zpos d)).
  assert (Hla0 : 0 <= la) by apply Z.log2_nonneg.
  assert (Hld0 : 0 <= ld) by apply Z.log2_nonneg.
  pose proof (Z.log2_spec (Z.abs n) Hn) as (Ha1 & Ha2). fold la in Ha1, Ha2.
  pose proof (Z.log2_spec (Zpos d) ltac:(lia)) as (Hd1 & Hd2). fold ld in Hd1, Hd2.
  rewrite <- Z.add_1_r in Ha2, Hd2.
  assert (Pd : 0 < 2 ^ ld) by (apply Z.pow_pos_nonneg; lia).
  assert (Pa : 0 < 2 ^ la) by (apply Z.pow_pos_nonneg; lia).
  destruct (Qle_bool (pow2 (la - ld)) (Qabs (n # d))) eqn:C.
  - split; [apply Qle_bool_iff; assumption|].
    apply (Qmult_lt_r _ _ (inject_Z (2 ^ ld))); [apply inject_Z_pow2_pos; lia|].
    replace (la - ld + 1) with (la + 1 - ld) by lia.
    rewrite pow2_sub_Z by lia. apply Qabs_frac_lt. nia.
  - apply Qle_bool_false in C. split.
    + apply (Qmult_le_r _ _ (inject_Z (2 ^ (ld + 1)))); [apply inject_Z_pow2_pos; lia|].
      replace (la - ld - 1) with (la - (ld + 1)) by lia.
      rewrite pow2_sub_Z by lia. apply Qabs_frac_le. nia.
    + replace (la - ld - 1 + 1) with (la - ld) by lia. assumption.
Qed.

Lemma round_half_even_Z (y : Q) (k : Z) :
  (y == inject_Z k)%Q -> round_half_even y = k.
Proof.
  intros H. unfold round_half_even.
  assert (Hf : Qfloor y = k) by (rewrite H; apply Qfloor_Z).
  rewrite Hf.
  assert (Hc : Qcompare (y - inject_Z k) (1 # 2) = Lt).
  { rewrite <- Qlt_alt. rewrite H. setoid_replace (inject_Z k - inject_Z k)%Q with 0%Q by ring.
    reflexivity. }
  rewrite Hc. reflexivity.
Qed.

(** Rounding moves a number by less than one and never past an integer. *)
Lemma round_half_even_range (y : Q) :
  Qfloor y <= round_half_even y <= Qfloor y + 1 /\
  (round_half_even y = Qfloor y + 1 -> (inject_Z (Qfloor y) + (1 # 2) <= y)%Q) /\
  (round_half_even y = Qfloor y -> (y <= inject_Z (Qfloor y) + (1 # 2))%Q).
Proof.
  unfold round_half_even. set (f := Qfloor y).
  destruct (Qcompare (y - inject_Z f) (1 # 2)) eqn:C.
  - apply Qeq_alt in C.
    destruct (Z.even f); (split; [lia|]); split; intros _; lra.
  - apply Qlt_alt in C. split; [lia|]. split; [lia|]. intros _. lra.
  - apply Qgt_alt in C. split; [lia|]. split; [|lia]. intros _. lra.
Qed.

Lemma Qabs_bounds (y b : Q) : (Qabs y <= b)%Q <-> (- b <= y)%Q /\ (y <= b)%Q.
Proof. apply Qabs_Qle_condition. Qed.

Lemma Qabs_lt_bounds (y b : Q) : (Qabs y < b)%Q -> (- b < y)%Q /\ (y < b)%Q.
Proof.
  intros H. pose proof (Qle_Qabs y) as H1. pose proof (Qle_Qabs (- y)) as H2.
  rewrite Qabs_opp in H2. split; lra.
Qed.

Lemma Qfloor_bounds (y : Q) :
  (inject_Z (Qfloor y) <= y)%Q /\ (y < inject_Z (Qfloor y) + 1)%Q.
Proof.
  split; [apply Qfloor_le|].
  change 1%Q with (inject_Z 1). rewrite <- inject_Z_plus. apply Qlt_floor.
Qed.

Lemma round_half_even_abs_le (y : Q) (K : Z) :
  (Qabs y <= inject_Z K)%Q -> Z.abs (round_half_even y) <= K.
Proof.
  intros H. apply Qabs_bounds in H as (Hlo & Hhi).
  destruct (round_half_even_range y) as (Hr & Hup & _).
  destruct (Qfloor_bounds y) as (F1 & F2).
  assert (H1 : - K <= Qfloor y).
  { assert (- K - 1 < Qfloor y); [|lia]. rewrite Zlt_Qlt.
    unfold Zminus. rewrite inject_Z_plus, !inject_Z_opp.
    change (inject_Z 1) with 1%Q. lra. }
  assert (H2 : Qfloor y <= K) by (rewrite Zle_Qle; lra).
  destruct (Z.eq_dec (round_half_even y) (Qfloor y + 1)) as [E|E]; [|lia].
  specialize (Hup E).
  assert (H3 : Qfloor y < K) by (rewrite Zlt_Qlt; lra).
  lia.
Qed.

Lemma round_half_even_abs_lt (y : Q) (K : Z) :
  (Qabs y < inject_Z K - (1 # 2))%Q -> Z.abs (round_half_even y) <= K - 1.
Proof.
  intros H. apply Qabs_lt_bounds in H as (Hlo & Hhi).
  destruct (round_half_even_range y) as (Hr & Hup & Hdn).
  destruct (Qfloor_bounds y) as (F1 & F2).
  assert (H1 : - K <= Qfloor y).
  { assert (- K - 1 < Qfloor y); [|lia]. rewrite Zlt_Qlt.
    unfold Zminus. rewrite inject_Z_plus, !inject_Z_opp.
    change (inject_Z 1) with 1%Q. lra. }
  assert (H2 : Qfloor y <= K - 1).
  { assert (Qfloor y < K); [|lia]. rewrite Zlt_Qlt. lra. }
  destruct (Z.eq_dec (round_half_even y) (Qfloor y + 1)) as [E|E].
  - specialize (Hup E).
    assert (H3 : Qfloor y + 1 < K) by (rewrite Zlt_Qlt, inject_Z_plus; change (inject_Z 1) with 1%Q; lra).
    lia.
  - assert (E' : round_half_even y = Qfloor y) by lia. specialize (Hdn E').
    destruct (Z.eq_dec (Qfloor y) (- K)) as [E2|E2]; [|lia].
    exfalso. rewrite E2, inject_Z_opp in Hdn. lra.
Qed.

Lemma pow2_mono (a b : Z) : a <= b -> (pow2 a <= pow2 b)%Q.
Proof. intros H. apply Qpower_le_compat_l; [assumption | discriminate]. Qed.

Lemma pow2_lt (a b : Z) : a < b -> (pow2 a < pow2 b)%Q.
Proof. intros H. apply Qpower_lt_compat_l; [assumption | reflexivity]. Qed.

Lemma pow2_lt_inv (a b : Z) : (pow2 a < pow2 b)%Q -> a < b.
Proof. intros H. apply Qpower_lt_compat_l_inv in H; [assumption | reflexivity]. Qed.

Lemma Qabs_div_pow2 (x : Q) (q : Z) : (Qabs (x / pow2 q) == Qabs x / pow2 q)%Q.
Proof.
  unfold Qdiv. rewrite Qabs_Qmult.
  rewrite (Qabs_pos (/ pow2 q)); [reflexivity|].
  apply Qinv_le_0_compat, Qlt_le_weak, pow2_pos.
Qed.

Lemma Qabs_mul_pow2 (x : Q) (q : Z) : (Qabs (x * pow2 q) == Qabs x * pow2 q)%Q.
Proof.
  rewrite Qabs_Qmult. rewrite (Qabs_pos (pow2 q)); [reflexivity|].
  apply Qlt_le_weak, pow2_pos.
Qed.

Lemma Qabs_inject_Z (z : Z) : Qabs (inject_Z z) = inject_Z (Z.abs z).
Proof. reflexivity. Qed.

Lemma pow2_nonzero (q : Z) : ~ (pow2 q == 0)%Q.
Proof. intros E. pose proof (pow2_pos q) as H. rewrite E in H. discriminate H. Qed.

(** A value with fewer than 53 significant bits above the unit of the
    subnormals, and below [2^1024], is a double: rounding leaves it as it
    is. *)
Lemma round64_exact (x : Q) (N s : Z) :
  (x == inject_Z N * pow2 s)%Q -> Z.abs N < 2 ^ 53 -> -1074 <= s ->
  (Qabs x < pow2 1024)%Q ->
  exists y, round64 x = Finite y /\ (y == x)%Q.
Proof.
  intros Hx HN Hs Hbig. unfold round64.
  destruct (Qeq_bool x 0) eqn:Z0.
  - apply Qeq_bool_eq in Z0. exists 0%Q. split; [reflexivity | symmetry; assumption].
  - apply Qeq_bool_neq in Z0.
    destruct (Qlog2_spec x Z0) as (L1 & _).
    set (e := Qlog2 x) in *. set (q := Z.max (e - 52) (-1074)).
    assert (Habs : (Qabs x == inject_Z (Z.abs N) * pow2 s)%Q).
    { rewrite Hx, Qabs_mul_pow2, Qabs_inject_Z. reflexivity. }
    assert (He : e < 53 + s).
    { apply pow2_lt_inv. eapply Qle_lt_trans; [exact L1|].
      rewrite Habs, pow2_add.
      apply Qmult_lt_compat_r; [apply pow2_pos|].
      rewrite pow2_Z by lia. rewrite <- Zlt_Qlt. assumption. }
    assert (Hq : q <= s) by (unfold q; lia).
    assert (Hint : (x / pow2 q == inject_Z (N * 2 ^ (s - q)))%Q).
    { rewrite Hx, inject_Z_mult, <- pow2_Z by lia.
      replace s with ((s - q) + q) at 1 by lia. rewrite pow2_add.
      rewrite Qmult_assoc. apply Qdiv_mult_l, pow2_nonzero. }
    rewrite (round_half_even_Z _ _ Hint).
    assert (Hy : (inject_Z (N * 2 ^ (s - q)) * pow2 q == x)%Q).
    { rewrite <- Hint, Qmult_comm. apply Qmult_div_r, pow2_nonzero. }
    assert (Hc : Qle_bool (pow2 1024) (Qabs (inject_Z (N * 2 ^ (s - q)) * pow2 q))
                 = false).
    { apply Qle_bool_false. rewrite Hy. assumption. }
    rewrite Hc. eexists. split; [reflexivity | assumption].
Qed.

Lemma threshold_scaled (A B : Z) :
  (inject_Z (A * (2 * B) - B) == (inject_Z A - (1 # 2)) * inject_Z (2 * B))%Q.
Proof.
  unfold Zminus. rewrite inject_Z_plus, inject_Z_opp, !inject_Z_mult.
  change (inject_Z 2) with 2%Q. field.
Qed.

(** A value of magnitude below [2^1024 - 2^970] rounds to a finite
    double. *)
Lemma round64_fits (x : Q) :
  (Qabs x < inject_Z (2 ^ 1024 - 2 ^ 970))%Q -> exists y, round64 x = Finite y.
Proof.
  intros Hx. unfold round64.
  destruct (Qeq_bool x 0) eqn:Z0; [eexists; reflexivity|].
  apply Qeq_bool_neq in Z0.
  destruct (Qlog2_spec x Z0) as (L1 & L2).
  set (e := Qlog2 x) in *. set (q := Z.max (e - 52) (-1074)).
  set (m := round_half_even (x / pow2 q)).
  assert (H970 : 0 < 2 ^ 970) by (apply Z.pow_pos_nonneg; lia).
  assert (H971 : 2 ^ 971 = 2 * 2 ^ 970).
  { replace 971 with (1 + 970) by lia. rewrite Z.pow_add_r by lia. reflexivity. }
  assert (H1024 : 2 ^ 1024 = 2 ^ 53 * 2 ^ 971).
  { replace 1024 with (53 + 971) by lia. apply Z.pow_add_r; lia. }
  assert (H1023 : 2 ^ 1024 = 2 * (2 ^ 53 * 2 ^ 970)).
  { rewrite H1024, H971. ring. }
  assert (P53 : 0 < 2 ^ 53) by (apply Z.pow_pos_nonneg; lia).
  assert (He : e <= 1023).
  { assert (e < 1024); [|lia]. apply pow2_lt_inv.
    eapply Qle_lt_trans; [exact L1|]. eapply Qlt_trans; [exact Hx|].
    rewrite pow2_Z by lia. rewrite <- Zlt_Qlt. lia. }
  assert (Hsmall : (Qabs (inject_Z m * pow2 q) < pow2 1024)%Q).
  { rewrite Qabs_mul_pow2, Qabs_inject_Z.
    destruct (Z.eq_dec e 1023) as [E|E].
    - assert (Eq : q = 971) by (unfold q; lia). rewrite Eq.
      assert (Hm : Z.abs m <= 2 ^ 53 - 1).
      { apply round_half_even_abs_lt. rewrite Qabs_div_pow2, Eq.
        apply Qlt_shift_div_r; [apply pow2_pos|].
        eapply Qlt_le_trans; [exact Hx|].
        rewrite (pow2_Z 971) by lia. rewrite H1024, H971.
        apply Qle_lteq; right. apply threshold_scaled. }
      rewrite !pow2_Z by lia. rewrite <- inject_Z_mult, <- Zlt_Qlt.
      rewrite H1024. assert (0 < 2 ^ 971) by lia. nia.
    - assert (Hq : q <= 970) by (unfold q; lia).
      assert (Hm : Z.abs m <= 2 ^ 53).
      { apply round_half_even_abs_le. rewrite Qabs_div_pow2.
        apply Qle_shift_div_r; [apply pow2_pos|].
        apply Qlt_le_weak. eapply Qlt_le_trans; [exact L2|].
        rewrite <- pow2_Z, <- pow2_add by lia. apply pow2_mono. unfold q. lia. }
      apply Qle_lt_trans with (inject_Z (2 ^ 53) * pow2 970)%Q.
      + apply Qle_trans with (inject_Z (2 ^ 53) * pow2 q)%Q.
        * apply Qmult_le_compat_r; [|apply Qlt_le_weak, pow2_pos].
          rewrite <- Zle_Qle. assumption.
        * apply Qmult_le_l; [apply inject_Z_pow2_pos; lia|]. apply pow2_mono. assumption.
      + rewrite !pow2_Z by lia. rewrite <- inject_Z_mult, <- Zlt_Qlt.
        rewrite H1023. assert (0 < 2 ^ 53 * 2 ^ 970) by lia. lia. }
  apply Qle_bool_false in Hsmall. fold m. rewrite Hsmall. eexists; reflexivity.
Qed.

Lemma float_of_int_fits (z : Z) :
  fits_double z -> exists y, float_of_int z = Value (Finite y).
Proof.
  intros H. unfold float_of_int.
  destruct (round64_fits (inject_Z z)) as (y & Hy).
  - rewrite Qabs_inject_Z, <- Zlt_Qlt. exact H.
  - rewrite Hy. eexists; reflexivity.
Qed.

(** ** Ints too large for a double *)

Lemma Qabs_ge_cases (y b : Q) : (b <= Qabs y)%Q -> (b <= y)%Q \/ (y <= - b)%Q.
Proof.
  intros H. destruct (Qlt_le_dec y 0) as [N|P].
  - right. rewrite Qabs_neg in H by lra. lra.
  - left. rewrite Qabs_pos in H by assumption. assumption.
Qed.

Lemma round_half_even_abs_ge (y : Q) (K : Z) :
  Z.even K = true -> (inject_Z K - (1 # 2) <= Qabs y)%Q ->
  K <= Z.abs (round_half_even y).
Proof.
  intros Ev H. destruct (Qfloor_bounds y) as (F1 & F2).
  unfold round_half_even. set (f := Qfloor y) in *.
  assert (Hodd : Z.even (K - 1) = false).
  { rewrite Z.even_sub, Ev. reflexivity. }
  assert (Hneg : Z.even (- K) = true).
  { rewrite Z.even_opp. assumption. }
  destruct (Qabs_ge_cases _ _ H) as [Hp|Hn].
  - assert (Hf : K - 1 <= f).
    { assert (K - 2 < f); [|lia]. rewrite Zlt_Qlt.
      unfold Zminus. rewrite inject_Z_plus, inject_Z_opp.
      change (inject_Z 2) with 2%Q. lra. }
    destruct (Qcompare (y - inject_Z f) (1 # 2)) eqn:C.
    + destruct (Z.even f) eqn:Ef; [|lia].
      destruct (Z.eq_dec f (K - 1)) as [E|E]; [congruence | lia].
    + apply Qlt_alt in C.
      assert (K - 1 < f); [|lia]. rewrite Zlt_Qlt.
      unfold Zminus. rewrite inject_Z_plus, inject_Z_opp.
      change (inject_Z 1) with 1%Q. lra.
    + lia.
  - assert (Hf : f <= - K).
    { assert (f < - K + 1); [|lia]. rewrite Zlt_Qlt.
      rewrite inject_Z_plus, inject_Z_opp. change (inject_Z 1) with 1%Q. lra. }
    destruct (Qcompare (y - inject_Z f) (1 # 2)) eqn:C.
    + destruct (Z.even f) eqn:Ef; [lia|].
      destruct (Z.eq_dec f (- K)) as [E|E]; [congruence | lia].
    + lia.
    + apply Qgt_alt in C.
      assert (f < - K); [|lia]. rewrite Zlt_Qlt, inject_Z_opp. lra.
Qed.

Lemma round64_overflows (x : Q) :
  (inject_Z (2 ^ 1024 - 2 ^ 970) <= Qabs x)%Q ->
  exists negative, round64 x = Infinity negative.
Proof.
  intros Hx. unfold round64.
  assert (H970 : 0 < 2 ^ 970) by (apply Z.pow_pos_nonneg; lia).
  assert (H971 : 2 ^ 971 = 2 * 2 ^ 970).
  { replace 971 with (1 + 970) by lia. rewrite Z.pow_add_r by lia. reflexivity. }
  assert (H1024 : 2 ^ 1024 = 2 ^ 53 * 2 ^ 971).
  { replace 1024 with (53 + 971) by lia. apply Z.pow_add_r; lia. }
  assert (H1023 : 2 ^ 1023 = 2 ^ 53 * 2 ^ 970).
  { replace 1023 with (53 + 970) by lia. apply Z.pow_add_r; lia. }
  assert (P53 : 2 <= 2 ^ 53) by (vm_compute; discriminate).
  assert (Hbig : (pow2 1023 <= Qabs x)%Q).
  { eapply Qle_trans; [|exact Hx]. rewrite pow2_Z by lia. rewrite <- Zle_Qle.
    rewrite H1024, H1023, H971. nia. }
  assert (Z0 : ~ (x == 0)%Q).
  { intros E. rewrite E in Hbig. pose proof (pow2_pos 1023) as P.
    change (Qabs 0) with 0%Q in Hbig. lra. }
  destruct (Qeq_bool x 0) eqn:Zb; [apply Qeq_bool_iff in Zb; contradiction|].
  destruct (Qlog2_spec x Z0) as (L1 & L2).
  set (e := Qlog2 x) in *. set (q := Z.max (e - 52) (-1074)).
  set (m := round_half_even (x / pow2 q)).
  assert (He : 1023 <= e).
  { assert (1023 < e + 1); [|lia]. apply pow2_lt_inv.
    eapply Qle_lt_trans; [exact Hbig | exact L2]. }
  assert (Eq : q = e - 52) by (unfold q; lia).
  assert (Hlarge : (pow2 1024 <= Qabs (inject_Z m * pow2 q))%Q).
  { rewrite Qabs_mul_pow2, Qabs_inject_Z.
    destruct (Z.eq_dec e 1023) as [E|E].
    - assert (Eq' : q = 971) by lia. rewrite Eq'.
      assert (Hm : 2 ^ 53 <= Z.abs m).
      { apply round_half_even_abs_ge; [reflexivity|].
        rewrite Qabs_div_pow2, Eq'.
        apply Qle_shift_div_l; [apply pow2_pos|].
        eapply Qle_trans; [|exact Hx].
        rewrite (pow2_Z 971) by lia. rewrite H1024, H971.
        apply Qle_lteq; right. symmetry. apply threshold_scaled. }
      rewrite !pow2_Z by lia. rewrite <- inject_Z_mult, <- Zle_Qle.
      rewrite H1024. assert (0 < 2 ^ 971) by lia. nia.
    - assert (Hm : 2 ^ 52 <= Z.abs m).
      { apply round_half_even_abs_ge; [reflexivity|].
        rewrite Qabs_div_pow2.
        apply Qle_shift_div_l; [apply pow2_pos|].
        apply Qle_trans with (pow2 e); [|exact L1].
        apply Qle_trans with (inject_Z (2 ^ 52) * pow2 q)%Q.
        - apply Qmult_le_compat_r; [|apply Qlt_le_weak, pow2_pos].
          assert (0 <= 1 # 2)%Q by discriminate. lra.
        - rewrite <- pow2_Z, <- pow2_add by lia. apply pow2_mono. lia. }
      apply Qle_trans with (inject_Z (2 ^ 52) * pow2 q)%Q.
      + rewrite <- pow2_Z, <- pow2_add by lia. apply pow2_mono. lia.
      + apply Qmult_le_compat_r; [|apply Qlt_le_weak, pow2_pos].
        rewrite <- Zle_Qle. assumption. }
  apply Qle_bool_iff in Hlarge. fold m. rewrite Hlarge. eexists; reflexivity.
Qed.

Lemma float_of_int_overflows (z : Z) :
  ~ fits_double z -> float_of_int z = Raise OverflowError.
Proof.
  intros H. unfold float_of_int.
  destruct (round64_overflows (inject_Z z)) as (s & Hs).
  - rewrite Qabs_inject_Z, <- Zle_Qle. unfold fits_double in H. lia.
  - rewrite Hs. reflexivity.
Qed.

(** ** Loops that may raise *)

Lemma while_loop_exc_more {S : Type} (cond : S -> bool) (body : S -> except S)
  (fuel : nat) :
  forall s r rest extra,
    while_loop_exc cond body s fuel = Some (r, rest) ->
    while_loop_exc cond body s (fuel + extra) = Some (r, (rest + extra)%nat).
Proof.
  induction fuel as [|fuel IH]; intros s r rest extra; simpl.
  - destruct (cond s) eqn:C; [discriminate|].
    intros H; injection H as <- <-.
    destruct extra; simpl; rewrite C; reflexivity.
  - destruct (cond s) eqn:C.
    + destruct (body s) as [s'|e]; [apply IH|].
      intros H; injection H as <- <-. reflexivity.
    + intros H; injection H as <- <-. reflexivity.
Qed.

Lemma while_loop_exc_stop {S : Type} (cond : S -> bool) (body : S -> except S) s fuel :
  cond s = false -> while_loop_exc cond body s fuel = Some (Value s, fuel).
Proof. intros C; destruct fuel; simpl; rewrite C; reflexivity. Qed.

Lemma while_loop_exc_le {S : Type} (cond : S -> bool) (body : S -> except S) fuel :
  forall s r rest, while_loop_exc cond body s fuel = Some (r, rest) -> (rest <= fuel)%nat.
Proof.
  induction fuel as [|fuel IH]; intros s r rest; simpl.
  - destruct (cond s); [discriminate|]. intros H; injection H as _ <-. lia.
  - destruct (cond s).
    + destruct (body s) as [s'|e].
      * intros H; apply IH in H. lia.
      * intros H; injection H as _ <-. lia.
    + intros H; injection H as _ <-. lia.
Qed.

Lemma uniform_while_exc {S : Type} (cond : S -> bool) (body : S -> except S) (s : S) :
  uniform (while_loop_exc cond body s).
Proof. intros fuel a rest extra; apply while_loop_exc_more. Qed.

Lemma uniform_ebind {A B : Type} (m : E A) (k : A -> E B) :
  uniform m -> (forall a, uniform (k a)) -> uniform (ebind m k).
Proof.
  intros Hm Hk. unfold ebind. apply uniform_bind; [assumption|].
  intros [a|e]; [apply Hk | apply uniform_ret].
Qed.

Lemma uniform_lift {A : Type} (m : M A) : uniform m -> uniform (lift m).
Proof.
  intros Hm. unfold lift. apply uniform_bind; [assumption|]. intros a. apply uniform_ret.
Qed.

(** Two finished runs of a uniform computation agree on the result and on
    the fuel they consumed. *)
Lemma uniform_agree {A : Type} (m : M A) f1 f2 (a1 a2 : A) r1 r2 :
  uniform m -> m f1 = Some (a1, r1) -> m f2 = Some (a2, r2) ->
  a1 = a2 /\ (f1 + r2 = f2 + r1)%nat.
Proof.
  intros U H1 H2.
  apply (U _ _ _ f2) in H1. apply (U _ _ _ f1) in H2.
  rewrite (Nat.add_comm f2 f1) in H2. rewrite H1 in H2.
  injection H2 as <- E. split; [reflexivity | lia].
Qed.

(** ** The accumulation loops on Python numbers *)

Section Loops.
Variable number : Q.

(** The integer loop (lines 40-47) runs [py_greedy] from [bit_idx] down to
    0 and appends its bits to [int_bits_str]. *)
Lemma int_loop_run (n : nat) :
  forall j a s f fuel,
    j = Z.of_nat n - 1 ->
    while_loop_exc (fun l => bit_idx l >? -1) (int_step number)
      (mkLocals j a s f) (snd (py_greedy number n j a) + fuel)
    = Some (match fst (py_greedy number n j a) with
            | Value (t, a') => Value (mkLocals (-1) a' (s ++ t) f)
            | Raise e => Raise e
            end, fuel).
Proof.
  induction n as [|n IH]; intros j a s f fuel Hj.
  - simpl. rewrite append_nil_r. subst j. apply while_loop_exc_stop. reflexivity.
  - assert (C : (j >? -1) = true) by (apply Z.gtb_lt; lia).
    simpl py_greedy. unfold int_step at 1.
    destruct (py_add a (py_pow2 j)) as [calc|e] eqn:Ha.
    + specialize (IH (j - 1) (if py_le calc number then calc else a)).
      destruct (py_greedy number n (j - 1) (if py_le calc number then calc else a))
        as [[[t a']|e] c] eqn:Hg; cbn [fst snd] in *.
      * simpl. rewrite C. unfold int_step. cbn [acc bit_idx int_bits_str frac_bits_str].
        rewrite Ha. destruct (py_le calc number);
          rewrite IH by lia; rewrite append_assoc; reflexivity.
      * simpl. rewrite C. unfold int_step. cbn [acc bit_idx int_bits_str frac_bits_str].
        rewrite Ha. destruct (py_le calc number); rewrite IH by lia; reflexivity.
    + simpl. rewrite C. unfold int_step. cbn [acc bit_idx]. rewrite Ha. reflexivity.
Qed.

(** The fractional loop (lines 49-56) continues it down to [- frac_bits]
    and appends to [frac_bits_str]. *)
Lemma frac_loop_run (frac_bits : Z) (n : nat) :
  forall j a s f fuel,
    Z.of_nat n = Z.max 0 (j + frac_bits + 1) ->
    while_loop_exc (fun l => bit_idx l >=? - frac_bits) (frac_step number)
      (mkLocals j a s f) (snd (py_greedy number n j a) + fuel)
    = Some (match fst (py_greedy number n j a) with
            | Value (t, a') => Value (mkLocals (j - Z.of_nat n) a' s (f ++ t))
            | Raise e => Raise e
            end, fuel).
Proof.
  induction n as [|n IH]; intros j a s f fuel Hj.
  - simpl. rewrite append_nil_r, Z.sub_0_r.
    apply while_loop_exc_stop. simpl. rewrite Z.geb_leb. apply Z.leb_gt. lia.
  - assert (C : (j >=? - frac_bits) = true) by (apply Z.geb_le; lia).
    simpl py_greedy.
    replace (j - Z.of_nat (Datatypes.S n)) with (j - 1 - Z.of_nat n) by lia.
    destruct (py_add a (py_pow2 j)) as [calc|e] eqn:Ha.
    + specialize (IH (j - 1) (if py_le calc number then calc else a)).
      destruct (py_greedy number n (j - 1) (if py_le calc number then calc else a))
        as [[[t a']|e] c] eqn:Hg; cbn [fst snd] in *.
      * simpl. rewrite C. unfold frac_step. cbn [acc bit_idx int_bits_str frac_bits_str].
        rewrite Ha. destruct (py_le calc number);
          rewrite IH by lia; rewrite append_assoc; reflexivity.
      * simpl. rewrite C. unfold frac_step. cbn [acc bit_idx int_bits_str frac_bits_str].
        rewrite Ha. destruct (py_le calc number); rewrite IH by lia; reflexivity.
    + simpl. rewrite C. unfold frac_step. cbn [acc bit_idx]. rewrite Ha. reflexivity.
Qed.

(** On ints and non-negative bit positions the accumulation is exact. *)
Lemma py_greedy_int (n : nat) :
  forall j z a,
    (inject_Z z == a)%Q -> Z.of_nat n <= j + 1 ->
    exists z',
      py_greedy number n j (PyInt z)
      = (Value (fst (greedy number n j a), PyInt z'), n) /\
      (inject_Z z' == snd (greedy number n j a))%Q.
Proof.
  induction n as [|n IH]; intros j z a Hz Hj.
  - exists z. split; [reflexivity | assumption].
  - assert (Hj0 : 0 <= j) by lia.
    simpl py_greedy. simpl greedy.
    unfold py_pow2. apply Z.leb_le in Hj0 as Hb. rewrite Hb. cbn [py_add py_le].
    assert (Hcalc : (inject_Z (z + 2 ^ j) == a + pow2 j)%Q).
    { rewrite inject_Z_plus, Hz, pow2_Z by lia. reflexivity. }
    rewrite (Qleb_comp _ _ Hcalc number number (Qeq_refl _)).
    destruct (Qle_bool (a + pow2 j) number).
    + destruct (IH (j - 1) (z + 2 ^ j) (a + pow2 j)%Q Hcalc ltac:(lia)) as (z' & E & Hz').
      rewrite E. destruct (greedy number n (j - 1) (a + pow2 j)) as [t a']. cbn [fst snd] in *.
      exists z'. split; [reflexivity | assumption].
    + destruct (IH (j - 1) z a Hz ltac:(lia)) as (z' & E & Hz').
      rewrite E. destruct (greedy number n (j - 1) a) as [t a']. cbn [fst snd] in *.
      exists z'. split; [reflexivity | assumption].
Qed.

Lemma py_pow2_neg (j : Z) : j < 0 -> exists x, py_pow2 j = PyFloat (Finite x).
Proof.
  intros H. unfold py_pow2.
  assert (Hb : (0 <=? j) = false) by (apply Z.leb_gt; assumption). rewrite Hb.
  destruct (-1074 <=? j); eexists; reflexivity.
Qed.

(** Below bit position 0 the accumulation never raises once the accumulator
    is a double or an int that converts, and it emits one bit per round. *)
Lemma py_greedy_convertible (n : nat) :
  forall j a,
    j < 0 -> convertible a ->
    exists t a',
      py_greedy number n j a = (Value (t, a'), n) /\
      len t = Z.of_nat n /\ bits_only t = true /\ convertible a'.
Proof.
  induction n as [|n IH]; intros j a Hj Ha.
  - exists "", a. repeat split; assumption.
  - simpl py_greedy. destruct (py_pow2_neg j Hj) as (x & Hx). rewrite Hx.
    assert (Hadd : exists calc, py_add a (PyFloat (Finite x)) = Value (PyFloat calc)).
    { destruct a as [z|f]; cbn [py_add].
      - destruct Ha as (y & Hy). rewrite Hy. eexists; reflexivity.
      - eexists; reflexivity. }
    destruct Hadd as (calc & Hadd). rewrite Hadd.
    destruct (py_le (PyFloat calc) number).
    + destruct (IH (j - 1) (PyFloat calc)) as (t & a' & E & L & B & C); [lia | exact I |].
      rewrite E. eexists. exists a'. split; [reflexivity|]. split; [|split; [|assumption]].
      * rewrite len_String, L. lia.
      * simpl. rewrite B. reflexivity.
    + destruct (IH (j - 1) a) as (t & a' & E & L & B & C); [lia | assumption |].
      rewrite E. eexists. exists a'. split; [reflexivity|]. split; [|split; [|assumption]].
      * rewrite len_String, L. lia.
      * simpl. rewrite B. reflexivity.
Qed.

(** It raises at once on an int that does not convert. *)
Lemma py_greedy_raises (n : nat) (j z : Z) (e : exn) :
  j < 0 -> float_of_int z = Raise e ->
  py_greedy number (Datatypes.S n) j (PyInt z) = (Raise e, 1%nat).
Proof.
  intros Hj Hz. simpl py_greedy. destruct (py_pow2_neg j Hj) as (x & Hx). rewrite Hx.
  cbn [py_add]. rewrite Hz. reflexivity.
Qed.
End Loops.

(** ** Where the doubles are exact *)

(** An accumulator of magnitude at most [2^52] enters a double addition
    with its exact value. *)
Lemma py_add_float (a : pynum) (v g : Q) :
  represents a v -> (Qabs v <= inject_Z (2 ^ 52))%Q ->
  exists y, py_add a (PyFloat (Finite g)) = Value (PyFloat (round64 (y + g)))
            /\ (y == v)%Q.
Proof.
  intros Ha Hv. destruct a as [z|[x|s|]]; cbn [represents] in Ha; try contradiction.
  - cbn [py_add]. unfold float_of_int.
    destruct (round64_exact (inject_Z z) z 0) as (y & Hy & Ey).
    + change (pow2 0) with 1%Q. ring.
    + rewrite <- Ha, Qabs_inject_Z, <- Zle_Qle in Hv.
      assert (2 ^ 52 < 2 ^ 53) by (apply Z.pow_lt_mono_r; lia). lia.
    + lia.
    + rewrite Ha. eapply Qle_lt_trans; [exact Hv|].
      rewrite pow2_Z by lia. rewrite <- Zlt_Qlt. apply Z.pow_lt_mono_r; lia.
    + rewrite Hy. exists y. cbn [fadd]. split; [reflexivity|]. rewrite Ey. assumption.
  - exists x. split; [reflexivity | assumption].
Qed.

Section Exact.
Variable number : Q.

(** The bits of the exact accumulation depend on the value of the
    accumulator, not on how it is written. *)
Lemma greedy_acc_ext (n : nat) :
  forall j a b, (a == b)%Q -> fst (greedy number n j a) = fst (greedy number n j b).
Proof.
  induction n as [|n IH]; intros j a b H; [reflexivity|].
  simpl greedy.
  assert (Hc : (a + pow2 j == b + pow2 j)%Q) by (rewrite H; reflexivity).
  rewrite (Qleb_comp _ _ Hc number number (Qeq_refl _)).
  destruct (Qle_bool (b + pow2 j) number).
  - specialize (IH (j - 1) _ _ Hc).
    destruct (greedy number n (j - 1) (a + pow2 j)) as [t a'].
    destruct (greedy number n (j - 1) (b + pow2 j)) as [t' b']. simpl in *. congruence.
  - specialize (IH (j - 1) _ _ H).
    destruct (greedy number n (j - 1) a) as [t a'].
    destruct (greedy number n (j - 1) b) as [t' b']. simpl in *. congruence.
Qed.

(** As long as every sum fits a double's 53 significant bits, the loop on
    Python numbers emits the bits of the exact accumulation. *)
Lemma py_greedy_exact (m : Z) (n : nat) :
  forall j a v N,
    represents a v ->
    j < 0 -> -1074 <= j + 1 - Z.of_nat n ->
    0 <= m -> m + Z.of_nat n - j - 1 <= 53 ->
    (v == inject_Z N * pow2 (j + 1))%Q ->
    (inject_Z (- 2 ^ m) <= v)%Q -> (v <= number)%Q -> (number < inject_Z (2 ^ m))%Q ->
    exists a',
      py_greedy number n j a = (Value (fst (greedy number n j v), a'), n) /\
      represents a' (snd (greedy number n j v)).
Proof.
  induction n as [|n IH]; intros j a v N Ha Hj Hlow Hm Hbits HN Hlo Hle Hhi.
  - exists a. split; [reflexivity | assumption].
  - simpl py_greedy. simpl greedy.
    assert (Hpj : py_pow2 j = PyFloat (Finite (pow2 j))).
    { unfold py_pow2.
      assert (H1 : (0 <=? j) = false) by (apply Z.leb_gt; lia).
      assert (H2 : (-1074 <=? j) = true) by (apply Z.leb_le; lia).
      rewrite H1, H2. reflexivity. }
    rewrite Hpj.
    assert (Pm : 0 < 2 ^ m) by (apply Z.pow_pos_nonneg; lia).
    assert (Hm52 : 2 ^ m <= 2 ^ 52) by (apply Z.pow_le_mono_r; lia).
    rewrite inject_Z_opp in Hlo.
    assert (Habs : (Qabs v <= inject_Z (2 ^ 52))%Q).
    { apply Qabs_bounds. rewrite Zle_Qle in Hm52. split; lra. }
    destruct (py_add_float a v (pow2 j) Ha Habs) as (y & Hadd & Hy).
    rewrite Hadd.
    (* the sum is a double *)
    set (u := - j - 1).
    assert (Hu : 0 <= u) by (unfold u; lia).
    assert (Pu : 0 < 2 ^ u) by (apply Z.pow_pos_nonneg; lia).
    assert (Hunit : (pow2 (j + 1) * inject_Z (2 ^ u) == 1)%Q).
    { rewrite <- pow2_Z, <- pow2_add by lia. replace (j + 1 + u) with 0 by (unfold u; lia).
      reflexivity. }
    assert (HNv : (inject_Z N == v * inject_Z (2 ^ u))%Q).
    { rewrite HN, <- Qmult_assoc, Hunit. ring. }
    assert (HNlt : N < 2 ^ m * 2 ^ u).
    { rewrite Zlt_Qlt, inject_Z_mult, HNv.
      apply Qmult_lt_compat_r; [rewrite <- pow2_Z by lia; apply pow2_pos | lra]. }
    assert (HNge : - (2 ^ m * 2 ^ u) <= N).
    { rewrite Zle_Qle, inject_Z_opp, inject_Z_mult, HNv.
      setoid_replace (- (inject_Z (2 ^ m) * inject_Z (2 ^ u)))%Q
        with ((- inject_Z (2 ^ m)) * inject_Z (2 ^ u))%Q by ring.
      apply Qmult_le_compat_r; [assumption|].
      rewrite <- pow2_Z by lia. apply Qlt_le_weak, pow2_pos. }
    assert (Hdouble : (pow2 (j + 1) == 2 * pow2 j)%Q).
    { rewrite pow2_succ. ring. }
    assert (Hsum : (y + pow2 j == inject_Z (2 * N + 1) * pow2 j)%Q).
    { rewrite Hy, HN, Hdouble, inject_Z_plus, inject_Z_mult.
      change (inject_Z 2) with 2%Q. change (inject_Z 1) with 1%Q. ring. }
    assert (Hmu : 2 * (2 ^ m * 2 ^ u) <= 2 ^ 53).
    { rewrite <- Z.pow_add_r, <- Z.pow_succ_r by lia.
      apply Z.pow_le_mono_r; unfold u; lia. }
    assert (Pj : (0 < pow2 j)%Q) by apply pow2_pos.
    destruct (round64_exact (y + pow2 j) (2 * N + 1) j Hsum) as (y' & Hr & Hy').
    + lia.
    + lia.
    + assert (Hpj1 : (pow2 j <= 1)%Q).
      { change 1%Q with (pow2 0). apply pow2_mono. lia. }
      assert (H53 : (inject_Z (2 ^ 52) + 1 < pow2 1024)%Q).
      { rewrite pow2_Z by lia. change 1%Q with (inject_Z 1).
        rewrite <- inject_Z_plus, <- Zlt_Qlt.
        assert (2 ^ 53 <= 2 ^ 1024) by (apply Z.pow_le_mono_r; lia).
        assert (2 ^ 53 = 2 * 2 ^ 52) by (change 53 with (Z.succ 52); apply Z.pow_succ_r; lia).
        assert (0 < 2 ^ 52) by (apply Z.pow_pos_nonneg; lia). lia. }
      apply Qle_lt_trans with (inject_Z (2 ^ 52) + 1)%Q; [|assumption].
      apply Qabs_bounds. apply Qabs_bounds in Habs as (A1 & A2). rewrite Hy. split; lra.
    + rewrite Hr. cbn [py_le].
      assert (Hcalc : (y' == v + pow2 j)%Q) by (rewrite Hy', Hy; reflexivity).
      rewrite (Qleb_comp _ _ Hcalc number number (Qeq_refl _)).
      assert (Hlo' : (inject_Z (- 2 ^ m) <= v)%Q) by (rewrite inject_Z_opp; assumption).
      destruct (Qle_bool (v + pow2 j) number) eqn:T.
      * apply Qle_bool_iff in T.
        assert (HN' : (v + pow2 j == inject_Z (2 * N + 1) * pow2 (j - 1 + 1))%Q).
        { replace (j - 1 + 1) with j by lia. rewrite <- Hsum, Hy. reflexivity. }
        assert (Hlo2 : (inject_Z (- 2 ^ m) <= v + pow2 j)%Q) by lra.
        destruct (IH (j - 1) (PyFloat (Finite y')) (v + pow2 j)%Q (2 * N + 1)
                    Hcalc ltac:(lia) ltac:(lia) Hm ltac:(lia) HN' Hlo2 T Hhi)
          as (a' & E & R).
        rewrite E. destruct (greedy number n (j - 1) (v + pow2 j)) as [t acc'].
        exists a'. split; [reflexivity | assumption].
      * assert (HN' : (v == inject_Z (2 * N) * pow2 (j - 1 + 1))%Q).
        { replace (j - 1 + 1) with j by lia. rewrite HN, Hdouble, inject_Z_mult.
          change (inject_Z 2) with 2%Q. ring. }
        destruct (IH (j - 1) a v (2 * N)
                    Ha ltac:(lia) ltac:(lia) Hm ltac:(lia) HN' Hlo' Hle Hhi)
          as (a' & E & R).
        rewrite E. destruct (greedy number n (j - 1) v) as [t acc'].
        exists a'. split; [reflexivity | assumption].
Qed.
End Exact.

(** ** How a call ends *)

Lemma magnitude_search_closed (number : Q) :
  forall fuel,
    magnitude_search (Qlt_bool number 0) number
      (int_rounds (Qlt_bool number 0) (start_index_of number) + fuel)%nat
    = Some (start_index_of number, fuel).
Proof.
  pose proof (start_index_closed number) as Hk.
  destruct (magnitude_search_run number) as (k' & Hk' & Hrun).
  rewrite <- (start_index_unique number _ k' Hk Hk') in Hrun. exact Hrun.
Qed.

(** The integer loop leaves the raw string and the int [floor(number)]. *)
Lemma int_loop_result (number : Q) (k : Z) :
  start_index number k ->
  let l := init_acc (Qlt_bool number 0) k in
  bit_idx l = Z.of_nat (int_rounds (Qlt_bool number 0) k) - 1 /\
  frac_bits_str l = "" /\
  exists t,
    py_greedy number (int_rounds (Qlt_bool number 0) k) (bit_idx l) (acc l)
    = (Value (t, PyInt (Qfloor number)), int_rounds (Qlt_bool number 0) k) /\
    int_bits_str l ++ t = raw_int number k.
Proof.
  intros Hk. pose proof (after_int_floor number k Hk) as Hfl.
  unfold start_index in Hk. unfold raw_int, after_int in *. cbv zeta.
  unfold init_acc, int_rounds.
  destruct (Qlt_bool number 0) eqn:Hneg; cbn [bit_idx acc int_bits_str frac_bits_str];
    cbv zeta in Hfl; cbn [snd] in Hfl.
  - destruct Hk as (Hk0 & _). split; [lia|]. split; [reflexivity|].
    unfold py_pow2. apply Z.leb_le in Hk0 as Hb. rewrite Hb. cbn [py_neg].
    destruct (py_greedy_int number (Z.to_nat k) (k - 1) (- 2 ^ k) (- pow2 k)%Q)
      as (z' & E & Hz').
    + rewrite inject_Z_opp, pow2_Z by assumption. reflexivity.
    + lia.
    + rewrite Hfl in Hz'. apply (proj1 (inject_Z_injective _ _)) in Hz'. subst z'.
      eexists. split; [exact E|]. reflexivity.
  - destruct Hk as (Hk1 & _). split; [lia|]. split; [reflexivity|].
    destruct (py_greedy_int number (Z.to_nat (k + 1)) k 0 0%Q) as (z' & E & Hz').
    + reflexivity.
    + lia.
    + rewrite Hfl in Hz'. apply (proj1 (inject_Z_injective _ _)) in Hz'. subst z'.
      eexists. split; [exact E|]. reflexivity.
Qed.

Lemma ebind_value {A B : Type} (m : E A) (k : A -> E B) (a : A) (fuel rest : nat) :
  m fuel = Some (Value a, rest) -> ebind m k fuel = k a rest.
Proof. intros H. unfold ebind, bind. rewrite H. reflexivity. Qed.

Lemma ebind_raise {A B : Type} (m : E A) (k : A -> E B) (e : exn) (fuel rest : nat) :
  m fuel = Some (Raise e, rest) -> ebind m k fuel = Some (Raise e, rest).
Proof. intros H. unfold ebind, bind. rewrite H. reflexivity. Qed.

Lemma lift_value {A : Type} (m : M A) (a : A) (fuel rest : nat) :
  m fuel = Some (a, rest) -> lift m fuel = Some (Value a, rest).
Proof. intros H. unfold lift, bind. rewrite H. reflexivity. Qed.

(** Lines 17-47 never raise: they leave the raw string and the int
    [floor(number)]. *)
Lemma integer_part_run (number : Q) :
  forall fuel,
    integer_part number
      (2 * int_rounds (Qlt_bool number 0) (start_index_of number) + fuel)%nat
    = Some (Value (Qlt_bool number 0,
                   mkLocals (-1) (PyInt (Qfloor number))
                     (raw_int number (start_index_of number)) ""), fuel).
Proof.
  intros fuel. unfold integer_part.
  set (neg := Qlt_bool number 0). set (k := start_index_of number).
  set (n := int_rounds neg k).
  destruct (int_loop_result number k (start_index_closed number))
    as (Hidx & Hf & t & Hg & Hraw).
  fold neg in Hidx, Hf, Hg, Hraw. fold n in Hidx, Hg.
  replace (2 * n + fuel)%nat with (n + (n + fuel))%nat by lia.
  destruct (init_acc neg k) as [j a s f] eqn:Einit.
  cbn [bit_idx acc int_bits_str frac_bits_str] in *. subst f.
  assert (Hsearch : lift (magnitude_search neg number) (n + (n + fuel))%nat
                    = Some (Value k, (n + fuel)%nat)).
  { apply lift_value. apply magnitude_search_closed. }
  assert (Hint :
    while_loop_exc (fun l => bit_idx l >? -1) (int_step number)
      (mkLocals j a s "") (n + fuel)%nat
    = Some (Value (mkLocals (-1) (PyInt (Qfloor number)) (s ++ t) ""), fuel)).
  { pose proof (int_loop_run number n j a s "" fuel Hidx) as H.
    rewrite Hg in H. exact H. }
  erewrite ebind_value by exact Hsearch. rewrite Einit.
  erewrite ebind_value by exact Hint. rewrite Hraw. reflexivity.
Qed.

Lemma float_to_bin_str_run (number : Q) (int_bits frac_bits : Z) :
  forall fuel,
    float_to_bin_str number int_bits frac_bits (cost number frac_bits + fuel)%nat
    = Some (outcome number int_bits frac_bits, fuel).
Proof.
  intros fuel. unfold float_to_bin_str, accumulate, cost, outcome, py_frac.
  set (neg := Qlt_bool number 0). set (k := start_index_of number).
  set (n := int_rounds neg k).
  set (g := py_greedy number (Z.to_nat frac_bits) (-1) (PyInt (Qfloor number))).
  replace (2 * n + snd g + fuel)%nat with (2 * n + (snd g + fuel))%nat by lia.
  assert (Hfrac :
    while_loop_exc (fun l => bit_idx l >=? - frac_bits) (frac_step number)
      (mkLocals (-1) (PyInt (Qfloor number)) (raw_int number k) "") (snd g + fuel)%nat
    = Some (match fst g with
            | Value (t', a') =>
                Value (mkLocals (-1 - Z.of_nat (Z.to_nat frac_bits)) a'
                         (raw_int number k) t')
            | Raise e => Raise e
            end, fuel)).
  { apply (frac_loop_run number frac_bits (Z.to_nat frac_bits) (-1)). lia. }
  destruct (fst g) as [[t' a']|e] eqn:Eg.
  - assert (Hacc :
      (r <-! integer_part number ;;
       let '(negative, l) := r in
       l <-! while_loop_exc (fun l => bit_idx l >=? - frac_bits) (frac_step number) l ;;
       eret (negative, l)) (2 * n + (snd g + fuel))%nat
      = Some (Value (neg, mkLocals (-1 - Z.of_nat (Z.to_nat frac_bits)) a'
                            (raw_int number k) t'), fuel)).
    { erewrite ebind_value by apply integer_part_run. cbv beta match.
      erewrite ebind_value by exact Hfrac. reflexivity. }
    erewrite ebind_value by exact Hacc. reflexivity.
  - assert (Hacc :
      (r <-! integer_part number ;;
       let '(negative, l) := r in
       l <-! while_loop_exc (fun l => bit_idx l >=? - frac_bits) (frac_step number) l ;;
       eret (negative, l)) (2 * n + (snd g + fuel))%nat
      = Some (Raise e, fuel)).
    { erewrite ebind_value by apply integer_part_run. cbv beta match.
      erewrite ebind_raise by exact Hfrac. reflexivity. }
    erewrite ebind_raise by exact Hacc. reflexivity.
Qed.

Lemma integer_part_uniform number : uniform (integer_part number).
Proof.
  unfold integer_part. apply uniform_ebind.
  - apply uniform_lift. unfold magnitude_search. destruct (Qlt_bool number 0).
    + apply uniform_while.
    + apply uniform_bind; [apply uniform_while | intros; apply uniform_ret].
  - intros k. apply uniform_ebind; [apply uniform_while_exc | intros l].
    apply uniform_ret.
Qed.

Lemma float_to_bin_str_uniform number int_bits frac_bits :
  uniform (float_to_bin_str number int_bits frac_bits).
Proof.
  unfold float_to_bin_str, accumulate.
  apply uniform_ebind.
  - apply uniform_ebind; [apply integer_part_uniform|].
    intros [negative l]. apply uniform_ebind; [apply uniform_while_exc | intros l'].
    apply uniform_ret.
  - intros [negative l]. apply uniform_ret.
Qed.

(** Whatever the fuel, a call that ends does so as [outcome] says, after
    [cost] iterations. *)
Lemma float_to_bin_str_ends number int_bits frac_bits fuel r rest :
  float_to_bin_str number int_bits frac_bits fuel = Some (r, rest) ->
  r = outcome number int_bits frac_bits /\ (fuel = cost number frac_bits + rest)%nat.
Proof.
  intros H.
  pose proof (float_to_bin_str_run number int_bits frac_bits 0) as R.
  destruct (uniform_agree _ _ _ _ _ _ _
              (float_to_bin_str_uniform number int_bits frac_bits) H R) as (E & F).
  split; [assumption | lia].
Qed.

Lemma returns_outcome number int_bits frac_bits r :
  returns number int_bits frac_bits r <-> outcome number int_bits frac_bits = Value r.
Proof.
  split.
  - intros (fuel & rest & H). apply float_to_bin_str_ends in H as (E & _). congruence.
  - intros H. exists (cost number frac_bits + 0)%nat, O.
    rewrite float_to_bin_str_run, H. reflexivity.
Qed.

Lemma raises_outcome number int_bits frac_bits e :
  raises number int_bits frac_bits e <-> outcome number int_bits frac_bits = Raise e.
Proof.
  split.
  - intros (fuel & rest & H). apply float_to_bin_str_ends in H as (E & _). congruence.
  - intros H. exists (cost number frac_bits + 0)%nat, O.
    rewrite float_to_bin_str_run, H. reflexivity.
Qed.


(** The fractional loop of a call whose accumulator converts. *)
Lemma py_frac_returns (number : Q) (frac_bits : Z) :
  frac_bits <= 0 \/ fits_double (Qfloor number) ->
  exists t a',
    py_frac number frac_bits = (Value (t, a'), Z.to_nat frac_bits) /\
    len t = Z.max 0 frac_bits /\ bits_only t = true.
Proof.
  intros H. unfold py_frac.
  destruct (Z.to_nat frac_bits) as [|n] eqn:En.
  - exists "", (PyInt (Qfloor number)). split; [reflexivity|].
    split; [change (len "") with 0; lia | reflexivity].
  - destruct H as [H|H]; [lia|].
    destruct (py_greedy_convertible number (Datatypes.S n) (-1) (PyInt (Qfloor number)))
      as (t & a' & E & L & B & _).
    + lia.
    + apply float_of_int_fits. assumption.
    + exists t, a'. split; [exact E|]. split; [lia | assumption].
Qed.

(** A call on a value whose integer part converts to a double returns. *)
Lemma outcome_returns (number : Q) (int_bits frac_bits : Z) :
  frac_bits <= 0 \/ fits_double (Qfloor number) ->
  exists t,
    outcome number int_bits frac_bits
    = Value (width_adjust (Qlt_bool number 0) int_bits
               (raw_int number (start_index_of number)), t) /\
    len t = Z.max 0 frac_bits /\ bits_only t = true /\
    cost number frac_bits
    = (2 * int_rounds (Qlt_bool number 0) (start_index_of number)
       + Z.to_nat frac_bits)%nat.
Proof.
  intros H. destruct (py_frac_returns number frac_bits H) as (t & a' & E & L & B).
  exists t. unfold outcome, cost. rewrite E. cbn [fst snd]. auto.
Qed.

(** Where every sum fits a double, a call returns what exact arithmetic
    gives. *)
Lemma outcome_exact (number : Q) (int_bits frac_bits m : Z) :
  0 <= frac_bits -> 0 <= m -> m + frac_bits <= 53 ->
  (inject_Z (- 2 ^ m) <= number)%Q -> (number < inject_Z (2 ^ m))%Q ->
  outcome number int_bits frac_bits = Value (exact_encoding number int_bits frac_bits).
Proof.
  intros Hfb Hm Hbits Hlo Hhi. unfold outcome, py_frac, exact_encoding, frac_str.
  pose proof (start_index_closed number) as Hk.
  pose proof (after_int_floor number _ Hk) as Hfl.
  destruct (Qfloor_bounds number) as (F1 & F2).
  destruct (py_greedy_exact number m (Z.to_nat frac_bits) (-1)
              (PyInt (Qfloor number)) (inject_Z (Qfloor number)) (Qfloor number))
    as (a' & E & _).
  - reflexivity.
  - lia.
  - lia.
  - assumption.
  - lia.
  - change (pow2 (-1 + 1)) with 1%Q. ring.
  - rewrite <- Zle_Qle. rewrite <- (Qfloor_Z (- 2 ^ m)). apply Qfloor_resp_le. assumption.
  - assumption.
  - assumption.
  - rewrite E. cbn [fst]. cbv zeta. do 2 f_equal.
    apply greedy_acc_ext. symmetry. exact Hfl.
Qed.

(** ** What every call that returns has in common *)

Lemma py_add_raise_kind (a b : pynum) (e : exn) :
  py_add a b = Raise e -> e = OverflowError.
Proof.
  unfold py_add, float_of_int.
  destruct a as [x|f], b as [y|g]; try discriminate.
  - destruct (round64 (inject_Z x)); intros H; inversion H; reflexivity.
  - destruct (round64 (inject_Z y)); intros H; inversion H; reflexivity.
Qed.

Lemma py_greedy_shape (number : Q) (n : nat) :
  forall j a,
    (snd (py_greedy number n j a) <= n)%nat /\
    (forall e, fst (py_greedy number n j a) = Raise e -> e = OverflowError) /\
    (forall t a', fst (py_greedy number n j a) = Value (t, a') ->
                  len t = Z.of_nat n /\ bits_only t = true /\
                  snd (py_greedy number n j a) = n).
Proof.
  induction n as [|n IH]; intros j a.
  - cbn [py_greedy fst snd]. split; [lia|]. split; [discriminate|].
    intros t a' H. inversion H. repeat split; reflexivity.
  - cbn [py_greedy].
    destruct (py_add a (py_pow2 j)) as [calc|e0] eqn:Eadd.
    + cbv zeta.
      specialize (IH (j - 1) (if py_le calc number then calc else a)).
      destruct (py_greedy number n (j - 1) (if py_le calc number then calc else a))
        as [[[t0 a0]|e1] c] eqn:Eg; cbn [fst snd] in *.
      * destruct IH as (Hc & _ & Hv). split; [lia|]. split; [discriminate|].
        intros t a' H. inversion H; subst.
        destruct (Hv t0 a' eq_refl) as (L & B & C).
        split; [rewrite len_String; lia|].
        split; [|lia].
        destruct (py_le calc number); cbn [bits_only]; rewrite B; reflexivity.
      * destruct IH as (Hc & Hr & _). split; [lia|]. split; [|discriminate].
        intros e H. inversion H; subst. apply Hr. reflexivity.
    + cbn [fst snd]. split; [lia|]. split; [|discriminate].
      intros e H. inversion H; subst. eapply py_add_raise_kind. exact Eadd.
Qed.

(** The shape of a returned pair, whatever the arguments. *)
Lemma outcome_value (number : Q) (int_bits frac_bits : Z) (i f : string) :
  outcome number int_bits frac_bits = Value (i, f) ->
  i = width_adjust (Qlt_bool number 0) int_bits (raw_int number (start_index_of number)) /\
  len f = Z.max 0 frac_bits /\ bits_only f = true /\
  cost number frac_bits
  = (2 * int_rounds (Qlt_bool number 0) (start_index_of number)
     + Z.to_nat frac_bits)%nat /\
  forall int_bits',
    outcome number int_bits' frac_bits
    = Value (width_adjust (Qlt_bool number 0) int_bits'
               (raw_int number (start_index_of number)), f).
Proof.
  unfold outcome, cost.
  destruct (py_greedy_shape number (Z.to_nat frac_bits) (-1) (PyInt (Qfloor number)))
    as (_ & _ & Hv).
  fold (py_frac number frac_bits) in Hv.
  destruct (fst (py_frac number frac_bits)) as [[t a']|e] eqn:E; [|discriminate].
  intros H. inversion H; subst.
  destruct (Hv f a' eq_refl) as (L & B & C).
  split; [reflexivity|]. split; [lia|]. split; [assumption|].
  split; [rewrite C; reflexivity|]. intros; reflexivity.
Qed.

(** A call raises nothing but [OverflowError], and only from a fractional
    loop that runs at least once on an int too large for a double. *)
Lemma outcome_raise (number : Q) (int_bits frac_bits : Z) (e : exn) :
  outcome number int_bits frac_bits = Raise e ->
  e = OverflowError /\ 1 <= frac_bits /\ ~ fits_double (Qfloor number) /\
  cost number frac_bits
  = (2 * int_rounds (Qlt_bool number 0) (start_index_of number) + 1)%nat.
Proof.
  intros H.
  assert (He : e = OverflowError).
  { unfold outcome in H.
    destruct (py_greedy_shape number (Z.to_nat frac_bits) (-1) (PyInt (Qfloor number)))
      as (_ & Hr & _).
    fold (py_frac number frac_bits) in Hr.
    destruct (fst (py_frac number frac_bits)) as [[t a']|e'] eqn:E; [discriminate|].
    inversion H; subst. apply Hr. reflexivity. }
  assert (Hfb : 1 <= frac_bits).
  { destruct (Z_lt_le_dec frac_bits 1) as [Hlt|]; [|assumption].
    destruct (outcome_returns number int_bits frac_bits) as (t & E & _);
      [left; lia | congruence]. }
  assert (Hfit : ~ fits_double (Qfloor number)).
  { intros Hf.
    destruct (outcome_returns number int_bits frac_bits) as (t & E & _);
      [right; assumption | congruence]. }
  split; [assumption|]. split; [assumption|]. split; [assumption|].
  unfold outcome, cost, py_frac in *.
  destruct (Z.to_nat frac_bits) as [|n] eqn:En; [lia|].
  destruct (float_of_int (Qfloor number)) as [y|e'] eqn:Ef.
  - exfalso.
    destruct (py_greedy_convertible number (Datatypes.S n) (-1) (PyInt (Qfloor number)))
      as (t & a' & E & _).
    + lia.
    + unfold convertible. unfold float_of_int in Ef.
      destruct (round64 (inject_Z (Qfloor number))) as [y'| |] eqn:Er;
        try discriminate.
      exists y'. unfold float_of_int. rewrite Er. reflexivity.
    + rewrite E in H. discriminate.
  - rewrite (py_greedy_raises number n (-1) (Qfloor number) e') by (lia || assumption).
    reflexivity.
Qed.

Lemma outcome_raises_iff (number : Q) (int_bits frac_bits : Z) :
  outcome number int_bits frac_bits = Raise OverflowError
  <-> 1 <= frac_bits /\ ~ fits_double (Qfloor number).
Proof.
  split.
  - intros H. apply outcome_raise in H as (_ & H1 & H2 & _). split; assumption.
  - intros (Hfb & Hfit). unfold outcome, py_frac.
    destruct (Z.to_nat frac_bits) as [|n] eqn:En; [lia|].
    rewrite (py_greedy_raises number n (-1) (Qfloor number) OverflowError).
    + reflexivity.
    + lia.
    + apply float_of_int_overflows. assumption.
Qed.

Lemma range_widen (number : Q) (m n : Z) :
  0 <= m <= n ->
  (inject_Z (- 2 ^ m) <= number)%Q -> (number < inject_Z (2 ^ m))%Q ->
  (inject_Z (- 2 ^ n) <= number)%Q /\ (number < inject_Z (2 ^ n))%Q.
Proof.
  intros Hmn Hlo Hhi.
  assert (Hp : 2 ^ m <= 2 ^ n) by (apply Z.pow_le_mono_r; lia).
  split.
  - eapply Qle_trans; [|exact Hlo]. rewrite <- Zle_Qle. lia.
  - eapply Qlt_le_trans; [exact Hhi|]. rewrite <- Zle_Qle. lia.
Qed.

Lemma fits_double_range (number : Q) (m : Z) :
  0 <= m <= 1023 ->
  (inject_Z (- 2 ^ m) <= number)%Q -> (number < inject_Z (2 ^ m))%Q ->
  fits_double (Qfloor number).
Proof.
  intros Hm Hlo Hhi. unfold fits_double.
  assert (H1 : - 2 ^ m <= Qfloor number).
  { rewrite <- (Qfloor_Z (- 2 ^ m)). apply Qfloor_resp_le. assumption. }
  assert (H2 : Qfloor number < 2 ^ m).
  { rewrite Zlt_Qlt. eapply Qle_lt_trans; [apply Qfloor_le | assumption]. }
  assert (Hp : 2 ^ m <= 2 ^ 1023) by (apply Z.pow_le_mono_r; lia).
  assert (H970 : 0 < 2 ^ 970) by (apply Z.pow_pos_nonneg; lia).
  assert (H1023 : 2 ^ 1023 = 2 ^ 53 * 2 ^ 970).
  { replace 1023 with (53 + 970) by lia. apply Z.pow_add_r; lia. }
  assert (H1024 : 2 ^ 1024 = 2 * 2 ^ 1023).
  { replace 1024 with (1 + 1023) by lia. rewrite Z.pow_add_r by lia. reflexivity. }
  assert (P53 : 2 <= 2 ^ 53) by (vm_compute; discriminate).
  assert (2 ^ 1023 < 2 ^ 1024 - 2 ^ 970) by nia.
  lia.
Qed.



(** ** Calls worked out by hand on the source *)

Example encode_zero :
  float_to_bin_str 0 5 12 12%nat = Some (Value ("00000", "000000000000"), O).
Proof. vm_compute. reflexivity. Qed.

Example encode_minus_one :
  float_to_bin_str (-1) 8 0 0%nat = Some (Value ("11111111", ""), O).
Proof. vm_compute. reflexivity. Qed.

Example encode_four :
  float_to_bin_str 4 5 0 6%nat = Some (Value ("00100", ""), O).
Proof. vm_compute. reflexivity. Qed.

Example encode_nine_overflows :
  float_to_bin_str 9 3 0 8%nat = Some (Value ("001", ""), O).
Proof. vm_compute. reflexivity. Qed.

(** The double 0.6 and the fraction 6/10 give the same strings. *)
Example encode_six_tenths :
  round64 (6 # 10) = Finite (5404319552844595 # 9007199254740992) /\
  float_to_bin_str (5404319552844595 # 9007199254740992) 1 3 3%nat
  = Some (Value ("0", "100"), O) /\
  float_to_bin_str (6 # 10) 1 3 3%nat = Some (Value ("0", "100"), O).
Proof. repeat split; vm_compute; reflexivity. Qed.

(** One iteration short, the call does not finish. *)
Example encode_four_needs_six :
  float_to_bin_str 4 5 0 5%nat = None.
Proof. vm_compute. reflexivity. Qed.

(** [1 + 2**-53] rounds to 1, so the last fractional bit is set. *)
Example encode_one_rounds_up :
  float_to_bin_str 1 2 53 55%nat
  = Some (Value ("01", str_repeat "0" 52 ++ "1"), O).
Proof. vm_compute. reflexivity. Qed.

(** [float(2**53 + 1)] is [2**53], and so is [2**53 + 0.5]. *)
Example encode_odd_int_rounds_up :
  float_to_bin_str (inject_Z (2 ^ 53 + 1)) 1 1 109%nat = Some (Value ("1", "1"), O) /\
  float_to_bin_str 1 1 1 3%nat = Some (Value ("1", "0"), O).
Proof. split; vm_compute; reflexivity. Qed.

(** [2**-1075] is [0.0]: below the subnormals every comparison succeeds. *)
Example encode_below_subnormals :
  float_to_bin_str 0 1 1080 1080%nat
  = Some (Value ("0", str_repeat "0" 1074 ++ "111111"), O).
Proof. vm_compute. reflexivity. Qed.

(** The int [2**1024] has no double: with a fractional bit the call raises,
    without one it returns. *)
Example encode_huge_int :
  float_to_bin_str (inject_Z (2 ^ 1024)) 1 1 2051%nat = Some (Raise OverflowError, O) /\
  float_to_bin_str (inject_Z (2 ^ 1024)) 1 0 2050%nat = Some (Value ("0", ""), O).
Proof. split; vm_compute; reflexivity. Qed.

(** The largest int that converts, and the smallest that does not. *)
Example encode_at_the_threshold :
  outcome (inject_Z (2 ^ 1024 - 2 ^ 970 - 1)) 1 1 = Value ("1", "1") /\
  outcome (inject_Z (2 ^ 1024 - 2 ^ 970)) 1 1 = Raise OverflowError.
Proof. split; vm_compute; reflexivity. Qed.

(** * The specification *)







(** C3 -- magnitude search.  The search of lines 26-32 finishes for every
    value and leaves in [bit_idx]: for a negative value the smallest
    [k >= 0] with [-2^k <= value]; for a value [>= 1] the largest [k] with
    [2^k <= value]; and [-1] for a value in [[0, 1)].  The comparison at an
    exact power of two holds with equality: encoding 4 with [int_bits = 5],
    [frac_bits = 0] gives the integer part "00100". *)
Theorem magnitude_search_index (number : Q) :
  exists (k : Z) (n : nat),
    (forall fuel,
        magnitude_search (Qlt_bool number 0) number (n + fuel)%nat = Some (k, fuel)) /\
    ((number < 0)%Q ->
       0 <= k /\ (- pow2 k <= number)%Q /\
       forall j, 0 <= j -> (- pow2 j <= number)%Q -> k <= j) /\
    ((1 <= number)%Q ->
       0 <= k /\ (pow2 k <= number)%Q /\
       forall j, (pow2 j <= number)%Q -> j <= k) /\
    ((0 <= number)%Q -> (number < 1)%Q -> k = -1) /\
    returns 4 5 0 ("00100", "").
Proof.
  destruct (magnitude_search_run number) as (k & Hk & Hrun).
  exists k, (int_rounds (Qlt_bool number 0) k). split; [exact Hrun|].
  unfold start_index in Hk.
  assert (Hge1 : (1 <= number)%Q -> Qlt_bool number 0 = false).
  { intros H. apply Qlt_bool_false.
    apply Qle_trans with 1%Q; [discriminate | assumption]. }
  split; [|split; [|split]].
  - intros H. apply Qlt_bool_iff in H. rewrite H in Hk.
    destruct Hk as (Hk0 & Hle & Hlt). split; [assumption|]. split; [assumption|].
    intros j Hj Hlej.
    destruct (Z_lt_le_dec j k) as [Hjk|Hjk]; [|assumption].
    exfalso. apply (Qlt_not_le _ _ (Hlt j (conj Hj Hjk))). assumption.
  - intros H. rewrite (Hge1 H) in Hk. destruct Hk as (Hk1 & Hlt & Hle).
    assert (Hk0 : 0 <= k).
    { destruct (Z.eq_dec k (-1)) as [->|]; [|lia].
      exfalso. apply (Qlt_not_le _ _ Hlt). assumption. }
    split; [assumption|]. split; [apply Hle; lia|].
    intros j Hj.
    assert (Hjk : (pow2 j < pow2 (k + 1))%Q) by (eapply Qle_lt_trans; eassumption).
    apply Qpower_lt_compat_l_inv in Hjk; [lia | reflexivity].
  - intros H0 H1. apply Qlt_bool_false in H0. rewrite H0 in Hk.
    destruct Hk as (Hk1 & _ & Hle).
    destruct (Z.eq_dec k (-1)) as [|Hne]; [assumption|].
    exfalso. apply (Qlt_not_le _ _ H1). apply (Hle 0). lia.
  - exists 6%nat, O. vm_compute. reflexivity.
Qed.

(** C4, as stated, fails: an over-long raw string is not always truncated
    without an error.  For the int [2^1024] with [int_bits = 1] and
    [frac_bits = 1] the integer loop leaves a raw string of 1025 characters,
    and the call raises [OverflowError] on line 50, before the truncation of
    lines 65-66 is reached. *)
Lemma truncation_not_reached_on_huge_int :
  1 <= 1 /\ 0 <= 1 /\
  (exists negative l fuel rest,
      integer_part (inject_Z (2 ^ 1024)) fuel = Some (Value (negative, l), rest) /\
      len (int_bits_str l) = 1025 /\ 1 < len (int_bits_str l)) /\
  raises (inject_Z (2 ^ 1024)) 1 1 OverflowError /\
  ~ (exists r, returns (inject_Z (2 ^ 1024)) 1 1 r).
Proof.
  split; [lia|]. split; [lia|]. split; [|split].
  - do 2 eexists. eexists. exists O.
    split; [apply (integer_part_run (inject_Z (2 ^ 1024)) 0)|].
    cbn [int_bits_str].
    assert (E : len (raw_int (inject_Z (2 ^ 1024))
                       (start_index_of (inject_Z (2 ^ 1024)))) = 1025)
      by (vm_compute; reflexivity).
    rewrite E. split; [reflexivity | lia].
  - apply raises_outcome. vm_compute. reflexivity.
  - intros (r & Hr). apply returns_outcome in Hr. vm_compute in Hr. discriminate.
Qed.

(** C4 -- overflow truncation, as the code has it.  The integer loop
    always leaves a raw integer-part string.  When it is longer than
    [int_bits], and [frac_bits = 0] or the int [floor(value)] converts to a
    double, the call returns and its integer part is the last [int_bits]
    characters of the raw string: the extra leading characters are dropped
    and the value is reduced modulo [2^int_bits], not saturated.  Encoding 9
    with [int_bits = 3], [frac_bits = 0] gives "001". *)
Theorem overflow_truncates (number : Q) (int_bits frac_bits : Z) :
  1 <= int_bits -> 0 <= frac_bits ->
  frac_bits = 0 \/ fits_double (Qfloor number) ->
  exists negative l fuel rest,
    integer_part number fuel = Some (Value (negative, l), rest) /\
    (int_bits < len (int_bits_str l) ->
     exists dropped kept frac_part,
       int_bits_str l = dropped ++ kept /\
       len kept = int_bits /\
       unsigned kept = unsigned (int_bits_str l) mod 2 ^ int_bits /\
       returns number int_bits frac_bits (kept, frac_part)) /\
    returns 9 3 0 ("001", "").
Proof.
  intros Hib Hfb Hfit.
  destruct (outcome_returns number int_bits frac_bits) as (t & Hout & _).
  { destruct Hfit; [left; lia | right; assumption]. }
  do 2 eexists. eexists. exists O.
  split; [apply (integer_part_run number 0)|]. cbn [int_bits_str]. split.
  - intros Hlong.
    set (raw := raw_int number (start_index_of number)) in *.
    destruct (width_adjust_long (Qlt_bool number 0) int_bits raw)
      as (hi & E & Lhi & L); [lia|].
    exists hi. eexists. exists t. split; [exact E|]. split; [exact L|].
    split; [|apply returns_outcome; exact Hout].
    pose proof (unsigned_bounds (width_adjust (Qlt_bool number 0) int_bits raw)) as B.
    rewrite L in B.
    apply mod_pow2_intro with (m := - unsigned hi); [assumption|].
    rewrite E at 2. rewrite unsigned_append, L. ring.
  - exists 8%nat, O. vm_compute. reflexivity.
Qed.

Lemma overflow_truncates_witness :
  1 <= 3 /\ 0 <= 2 /\ (2 = 0 \/ fits_double (Qfloor (-100))) /\
  exists negative l fuel rest,
    integer_part (-100) fuel = Some (Value (negative, l), rest) /\
    (3 < len (int_bits_str l) ->
     exists dropped kept frac_part,
       int_bits_str l = dropped ++ kept /\
       len kept = 3 /\
       unsigned kept = unsigned (int_bits_str l) mod 2 ^ 3 /\
       returns (-100) 3 2 (kept, frac_part)) /\
    returns 9 3 0 ("001", "").
Proof.
  assert (H : 2 = 0 \/ fits_double (Qfloor (-100))) by (right; reflexivity).
  split; [lia|]. split; [lia|]. split; [exact H|].
  apply (overflow_truncates (-100) 3 2); [lia | lia | exact H].
Defined.
















(** * Further properties of the encoder *)

(** X1 -- output alphabet.  The two strings of every call that returns are
    made of the characters '0' and '1' only, whatever the value and the
    widths. *)
Theorem encoder_emits_bits (number : Q) (int_bits frac_bits : Z)
  (int_part frac_part : string) :
  returns number int_bits frac_bits (int_part, frac_part) ->
  bits_only int_part = true /\ bits_only frac_part = true.
Proof.
  intros H. apply returns_outcome in H.
  apply outcome_value in H as (-> & _ & B & _).
  split; [|assumption].
  apply bits_only_width_adjust, bits_only_raw_int.
Qed.

Lemma encoder_emits_bits_witness :
  returns (-7 # 2) 5 3 ("11100", "100") /\
  bits_only "11100" = true /\ bits_only "100" = true.
Proof.
  assert (H : returns (-7 # 2) 5 3 ("11100", "100"))
    by (exists 7%nat, O; vm_compute; reflexivity).
  split; [exact H|].
  apply (encoder_emits_bits (-7 # 2) 5 3 "11100" "100" H).
Defined.













(** X8 -- the search is a logarithm.  The magnitude search of lines 26-32
    finishes with [floor(log2(floor(value)))] for a value [>= 1], with
    [ceil(log2(-floor(value)))] for a negative value and with -1 in between,
    after as many iterations as that index (negative value) or that index
    plus one (otherwise). *)
Theorem magnitude_search_is_log2 (number : Q) :
  forall fuel,
    magnitude_search (Qlt_bool number 0) number
      ((if Qlt_bool number 0 then Z.to_nat (Z.log2_up (- Qfloor number))
        else if Qlt_bool number 1 then O
        else Z.to_nat (Z.log2 (Qfloor number) + 1)) + fuel)%nat
    = Some ((if Qlt_bool number 0 then Z.log2_up (- Qfloor number)
             else if Qlt_bool number 1 then -1
             else Z.log2 (Qfloor number)), fuel).
Proof.
  intros fuel.
  pose proof (start_index_closed number) as Hk.
  destruct (magnitude_search_run number) as (k' & Hk' & Hrun).
  rewrite <- (start_index_unique number _ k' Hk Hk') in Hrun.
  specialize (Hrun fuel). unfold start_index_of, int_rounds in Hrun.
  destruct (Qlt_bool number 0); [exact Hrun|].
  destruct (Qlt_bool number 1); exact Hrun.
Qed.


(** * The coordinate transform *)

Lemma subscript_nonneg {A : Type} (l : list A) (i : Z) :
  0 <= i ->
  subscript l i = match nth_error l (Z.to_nat i) with
                  | Some a => Value a
                  | None => Raise IndexError
                  end.
Proof.
  intros H. unfold subscript.
  assert (E : (i <? 0) = false) by (apply Z.ltb_ge; assumption).
  rewrite E. reflexivity.
Qed.

Lemma subscript_value {A : Type} (l : list A) (i : nat) (a : A) :
  subscript l (Z.of_nat i) = Value a -> nth_error l i = Some a.
Proof.
  rewrite subscript_nonneg by lia. rewrite Nat2Z.id.
  destruct (nth_error l i); intros H; inversion H; reflexivity.
Qed.

Lemma subscript_raise {A : Type} (l : list A) (i : Z) (e : exn) :
  subscript l i = Raise e -> e = IndexError.
Proof.
  unfold subscript.
  destruct (i <? 0); [destruct (Z.of_nat (List.length l) + i <? 0)|];
    try (intros H; inversion H; reflexivity);
    match goal with
    | |- context [nth_error ?l ?k] => destruct (nth_error l k)
    end; intros H; inversion H; reflexivity.
Qed.

Lemma subscript_map {A B : Type} (f : A -> B) (l : list A) (i : Z) :
  subscript (map f l) i = match subscript l i with
                          | Value a => Value (f a)
                          | Raise e => Raise e
                          end.
Proof.
  unfold subscript. rewrite length_map.
  destruct (i <? 0); [destruct (Z.of_nat (List.length l) + i <? 0)|];
    try reflexivity; rewrite nth_error_map;
    match goal with
    | |- context [nth_error ?l ?k] => destruct (nth_error l k)
    end; reflexivity.
Qed.

Lemma well_formed_shape {N : Type} (m : list (list N)) :
  well_formed m = true <->
  exists a0 a1 a2 a' b0 b1 b2 b' d0 d1 d2 d' m',
    m = (a0 :: a1 :: a2 :: a') :: (b0 :: b1 :: b2 :: b')
          :: (d0 :: d1 :: d2 :: d') :: m'.
Proof.
  split.
  - unfold well_formed. intros H.
    apply andb_true_iff in H as (Hm & Hrows).
    destruct m as [|ra [|rb [|rd m']]]; try discriminate Hm.
    simpl in Hrows.
    apply andb_true_iff in Hrows as (Ha & Hrows).
    apply andb_true_iff in Hrows as (Hb & Hrows).
    apply andb_true_iff in Hrows as (Hd & _).
    destruct ra as [|a0 [|a1 [|a2 a']]]; try discriminate Ha.
    destruct rb as [|b0 [|b1 [|b2 b']]]; try discriminate Hb.
    destruct rd as [|d0 [|d1 [|d2 d']]]; try discriminate Hd.
    repeat eexists.
  - intros (a0 & a1 & a2 & a' & b0 & b1 & b2 & b'
            & d0 & d1 & d2 & d' & m' & ->).
    reflexivity.
Qed.

Lemma readable_shape {N : Type} (c : list N) (m : list (list N)) :
  readable c m = true <->
  exists c0 c1 c2 c' a0 a1 a2 a' b0 b1 b2 b' d0 d1 d2 d' m',
    c = c0 :: c1 :: c2 :: c' /\
    m = (a0 :: a1 :: a2 :: a') :: (b0 :: b1 :: b2 :: b')
          :: (d0 :: d1 :: d2 :: d') :: m'.
Proof.
  split.
  - unfold readable. intros H.
    apply andb_true_iff in H as (Hc & Hm).
    destruct c as [|c0 [|c1 [|c2 c']]]; try discriminate Hc.
    apply well_formed_shape in Hm
      as (a0 & a1 & a2 & a' & b0 & b1 & b2 & b' & d0 & d1 & d2 & d' & m' & ->).
    repeat eexists.
  - intros (c0 & c1 & c2 & c' & a0 & a1 & a2 & a' & b0 & b1 & b2 & b'
            & d0 & d1 & d2 & d' & m' & -> & ->).
    reflexivity.
Qed.

Lemma xbind_value {A B : Type} (o : except A) (k : A -> except B) (b : B) :
  xbind o k = Value b -> exists a, o = Value a /\ k a = Value b.
Proof. destruct o as [a|e]; [eauto | discriminate]. Qed.

Lemma xbind_raise {A B : Type} (o : except A) (k : A -> except B) (e : exn) :
  xbind o k = Raise e -> o = Raise e \/ exists a, o = Value a /\ k a = Raise e.
Proof.
  destruct o as [a|e']; [eauto|].
  intros H. left. simpl in H. inversion H. reflexivity.
Qed.

Lemma py_mul_raise_kind (a b : pynum) (e : exn) :
  py_mul a b = Raise e -> e = OverflowError.
Proof.
  unfold py_mul, float_of_int.
  destruct a as [x|f], b as [y|g]; try discriminate.
  - destruct (round64 (inject_Z x)); intros H; inversion H; reflexivity.
  - destruct (round64 (inject_Z y)); intros H; inversion H; reflexivity.
Qed.

Section Transform.

Context {N : Type} `{Number N}.

Lemma term_value (c : list N) (m : list (list N)) (r j : nat) (v : N) :
  term c m (Z.of_nat r) (Z.of_nat j) = Value v ->
  (j < List.length c)%nat /\
  exists row, nth_error m r = Some row /\ (j < List.length row)%nat.
Proof.
  unfold term. intros H0.
  apply xbind_value in H0 as (cj & Hc & H0).
  apply xbind_value in H0 as (row & Hm & H0).
  apply xbind_value in H0 as (e & He & _).
  apply subscript_value in Hc, Hm, He.
  split.
  - apply nth_error_Some. congruence.
  - exists row. split; [assumption|]. apply nth_error_Some. congruence.
Qed.

Lemma row_sum_value (c : list N) (m : list (list N)) (r : nat) (v : N) :
  row_sum c m (Z.of_nat r) = Value v ->
  (3 <= List.length c)%nat /\
  exists row, nth_error m r = Some row /\ (3 <= List.length row)%nat.
Proof.
  unfold row_sum. intros H0.
  apply xbind_value in H0 as (t0 & _ & H0).
  apply xbind_value in H0 as (t1 & _ & H0).
  apply xbind_value in H0 as (s & _ & H0).
  apply xbind_value in H0 as (t2 & H2 & _).
  apply (term_value c m r 2) in H2 as (Hc & row & Hm & Hr).
  split; [lia|]. exists row. split; [assumption | lia].
Qed.

(** A result needs the three entries and the three rows of three. *)
Lemma apply_transformation_value (c : list N) (m : list (list N)) (t : N * N * N) :
  apply_transformation c m = Value t -> readable c m = true.
Proof.
  intros H0. unfold apply_transformation in H0.
  apply xbind_value in H0 as (x & Hx & H0).
  apply xbind_value in H0 as (y & Hy & H0).
  apply xbind_value in H0 as (one & Ho & _).
  apply (row_sum_value c m 0) in Hx as (Hc & ra & Ha & La).
  apply (row_sum_value c m 1) in Hy as (_ & rb & Hb & Lb).
  apply (row_sum_value c m 2) in Ho as (_ & rd & Hd & Ld).
  unfold readable, well_formed.
  destruct m as [|ra' [|rb' [|rd' m']]]; try discriminate.
  simpl in Ha, Hb, Hd. injection Ha as Ea. injection Hb as Eb. injection Hd as Ed.
  subst ra' rb' rd'. cbn [firstn forallb List.length].
  apply Nat.leb_le in Hc, La, Lb, Ld. rewrite Hc, La, Lb, Ld. reflexivity.
Qed.

Hypothesis times_raise : forall a b e, times a b = Raise e -> e = OverflowError.
Hypothesis plus_raise : forall a b e, plus a b = Raise e -> e = OverflowError.

(** With the entries in place, only the arithmetic can raise. *)
Lemma apply_transformation_raise (c : list N) (m : list (list N)) (e : exn) :
  readable c m = true -> apply_transformation c m = Raise e -> e = OverflowError.
Proof.
  intros Hr. apply readable_shape in Hr
    as (c0 & c1 & c2 & c' & a0 & a1 & a2 & a' & b0 & b1 & b2 & b'
        & d0 & d1 & d2 & d' & m' & -> & ->).
  assert (Hrow : forall x0 x1 x2 e',
             (t0 <-? times c0 x0 ;; t1 <-? times c1 x1 ;; s <-? plus t0 t1 ;;
              t2 <-? times c2 x2 ;; plus s t2) = Raise e' -> e' = OverflowError).
  { intros x0 x1 x2 e' H0.
    apply xbind_raise in H0 as [H0|(t0 & _ & H0)]; [eapply times_raise; eassumption|].
    apply xbind_raise in H0 as [H0|(t1 & _ & H0)]; [eapply times_raise; eassumption|].
    apply xbind_raise in H0 as [H0|(s & _ & H0)]; [eapply plus_raise; eassumption|].
    apply xbind_raise in H0 as [H0|(t2 & _ & H0)]; [eapply times_raise; eassumption|].
    eapply plus_raise; eassumption. }
  unfold apply_transformation, row_sum, term. simpl.
  intros H0.
  apply xbind_raise in H0 as [H0|(x & _ & H0)]; [eapply Hrow; eassumption|].
  apply xbind_raise in H0 as [H0|(y & _ & H0)]; [eapply Hrow; eassumption|].
  apply xbind_raise in H0 as [H0|(one & _ & H0)]; [eapply Hrow; eassumption|].
  discriminate.
Qed.

End Transform.

Section Exact_numbers.

Context {N : Type} `{Number N}.

Hypothesis times_total : forall a b, exists v, times a b = Value v.
Hypothesis plus_total : forall a b, exists v, plus a b = Value v.

(** Where the arithmetic cannot raise, only a subscript can. *)
Lemma apply_transformation_raise_index (c : list N) (m : list (list N)) (e : exn) :
  apply_transformation c m = Raise e -> e = IndexError.
Proof.
  assert (Ht : forall a b e', times a b = Raise e' -> e' = IndexError).
  { intros a b e' H0. destruct (times_total a b) as (v & Hv). congruence. }
  assert (Hp : forall a b e', plus a b = Raise e' -> e' = IndexError).
  { intros a b e' H0. destruct (plus_total a b) as (v & Hv). congruence. }
  assert (Hterm : forall r j e', term c m r j = Raise e' -> e' = IndexError).
  { intros r j e' H0. unfold term in H0.
    apply xbind_raise in H0 as [H0|(cj & _ & H0)]; [eapply subscript_raise; eassumption|].
    apply xbind_raise in H0 as [H0|(row & _ & H0)]; [eapply subscript_raise; eassumption|].
    apply xbind_raise in H0 as [H0|(x & _ & H0)]; [eapply subscript_raise; eassumption|].
    eapply Ht; eassumption. }
  assert (Hrow : forall r e', row_sum c m r = Raise e' -> e' = IndexError).
  { intros r e' H0. unfold row_sum in H0.
    apply xbind_raise in H0 as [H0|(t0 & _ & H0)]; [eapply Hterm; eassumption|].
    apply xbind_raise in H0 as [H0|(t1 & _ & H0)]; [eapply Hterm; eassumption|].
    apply xbind_raise in H0 as [H0|(s & _ & H0)]; [eapply Hp; eassumption|].
    apply xbind_raise in H0 as [H0|(t2 & _ & H0)]; [eapply Hterm; eassumption|].
    eapply Hp; eassumption. }
  intros H0. unfold apply_transformation in H0.
  apply xbind_raise in H0 as [H0|(x & _ & H0)]; [eapply Hrow; eassumption|].
  apply xbind_raise in H0 as [H0|(y & _ & H0)]; [eapply Hrow; eassumption|].
  apply xbind_raise in H0 as [H0|(one & _ & H0)]; [eapply Hrow; eassumption|].
  discriminate.
Qed.

End Exact_numbers.

(** On ints the transform is the integer matrix-vector product. *)
Lemma apply_transformation_int (c0 c1 c2 : Z) (c' : list Z)
  (a0 a1 a2 : Z) (a' : list Z) (b0 b1 b2 : Z) (b' : list Z)
  (d0 d1 d2 : Z) (d' : list Z) (m' : list (list Z)) :
  apply_transformation (c0 :: c1 :: c2 :: c')
    ((a0 :: a1 :: a2 :: a') :: (b0 :: b1 :: b2 :: b') :: (d0 :: d1 :: d2 :: d') :: m')
  = Value (c0 * a0 + c1 * a1 + c2 * a2,
           c0 * b0 + c1 * b1 + c2 * b2,
           c0 * d0 + c1 * d1 + c2 * d2).
Proof. reflexivity. Qed.

Lemma apply_transformation_int_raise (c : list Z) (m : list (list Z)) :
  readable c m = false -> apply_transformation c m = Raise IndexError.
Proof.
  intros Hr. destruct (apply_transformation c m) as [t|e] eqn:E.
  - apply apply_transformation_value in E. congruence.
  - f_equal. eapply (apply_transformation_raise_index (N := Z)); [| |exact E].
    + intros a b. eexists. reflexivity.
    + intros a b. eexists. reflexivity.
Qed.

(** Python numbers that are all ints behave as the ints they hold. *)
Lemma term_ints (c : list Z) (m : list (list Z)) (r j : Z) :
  term (ints c) (int_matrix m) r j
  = match term c m r j with
    | Value z => Value (PyInt z)
    | Raise e => Raise e
    end.
Proof.
  unfold term, ints, int_matrix. rewrite !subscript_map.
  destruct (subscript c j) as [cj|e]; [|reflexivity]. cbn [xbind].
  destruct (subscript m r) as [row|e]; [|reflexivity]. cbn [xbind].
  unfold ints. rewrite subscript_map.
  destruct (subscript row j) as [x|e]; reflexivity.
Qed.

Lemma row_sum_ints (c : list Z) (m : list (list Z)) (r : Z) :
  row_sum (ints c) (int_matrix m) r
  = match row_sum c m r with
    | Value z => Value (PyInt z)
    | Raise e => Raise e
    end.
Proof.
  unfold row_sum. rewrite !term_ints.
  destruct (term c m r 0) as [t0|e]; [|reflexivity]. cbn [xbind].
  destruct (term c m r 1) as [t1|e]; [|reflexivity]. cbn [xbind plus times
    pynum_number int_number py_add].
  destruct (term c m r 2) as [t2|e]; reflexivity.
Qed.

Lemma apply_transformation_ints (c : list Z) (m : list (list Z)) :
  apply_transformation (ints c) (int_matrix m)
  = match apply_transformation c m with
    | Value (x, y, one) => Value (PyInt x, PyInt y, PyInt one)
    | Raise e => Raise e
    end.
Proof.
  unfold apply_transformation. rewrite !row_sum_ints.
  destruct (row_sum c m 0) as [x|e]; [|reflexivity]. cbn [xbind].
  destruct (row_sum c m 1) as [y|e]; [|reflexivity]. cbn [xbind].
  destruct (row_sum c m 2) as [one|e]; reflexivity.
Qed.

Lemma forallb_length_map (n : nat) (l : list (list Z)) :
  forallb (fun row => (n <=? List.length row)%nat) (map ints l)
  = forallb (fun row => (n <=? List.length row)%nat) l.
Proof.
  induction l as [|row l IH]; [reflexivity|].
  simpl. unfold ints at 1. rewrite length_map, IH. reflexivity.
Qed.

Lemma readable_ints (c : list Z) (m : list (list Z)) :
  readable (ints c) (int_matrix m) = readable c m.
Proof.
  unfold readable, well_formed, int_matrix. unfold ints at 1.
  rewrite !length_map, firstn_map, forallb_length_map. reflexivity.
Qed.

(** X9 -- when the transform is defined.  With at least three coordinates
    and three rows of at least three entries [apply_transformation] returns
    or raises OverflowError (an int too large for a double met a double);
    without them it always raises.  On ints it returns ints exactly when the
    entries are there, and raises IndexError otherwise.  Entries beyond the
    first three are ignored. *)
Theorem apply_transformation_defined (c : list pynum) (m : list (list pynum)) :
  (readable c m = true ->
   (exists t, apply_transformation c m = Value t)
   \/ apply_transformation c m = Raise OverflowError) /\
  (readable c m = false -> exists e, apply_transformation c m = Raise e) /\
  (forall cz mz, c = ints cz -> m = int_matrix mz ->
     (readable c m = true ->
      exists x y w, apply_transformation c m = Value (PyInt x, PyInt y, PyInt w)) /\
     (readable c m = false -> apply_transformation c m = Raise IndexError)).
Proof.
  split; [|split].
  - intros Hr. destruct (apply_transformation c m) as [t|e] eqn:E.
    + left. eexists. reflexivity.
    + right. f_equal.
      eapply (apply_transformation_raise (N := pynum)); [| |exact Hr|exact E].
      * intros a b e'. apply py_mul_raise_kind.
      * intros a b e'. apply py_add_raise_kind.
  - intros Hr. destruct (apply_transformation c m) as [t|e] eqn:E.
    + apply apply_transformation_value in E. congruence.
    + eexists. reflexivity.
  - intros cz mz -> ->. rewrite readable_ints, apply_transformation_ints. split.
    + intros Hr. apply readable_shape in Hr
        as (c0 & c1 & c2 & c' & a0 & a1 & a2 & a' & b0 & b1 & b2 & b'
            & d0 & d1 & d2 & d' & m' & -> & ->).
      rewrite apply_transformation_int. do 3 eexists. reflexivity.
    + intros Hr. rewrite apply_transformation_int_raise by assumption. reflexivity.
Qed.

(** X10 -- identity.  Through the identity matrix every int coordinate
    comes back unchanged.  A coordinate that mixes ints and doubles need
    not: the int [2^53 + 1] next to the double 0.5 comes back as the double
    [2^53], because the sum of its product with the double zero of the
    second term is rounded. *)
Theorem apply_transformation_identity (x y w : Z) :
  apply_transformation [x; y; w] identity_matrix = Value (x, y, w) /\
  apply_transformation [PyInt x; PyInt y; PyInt w] (int_matrix identity_matrix)
  = Value (PyInt x, PyInt y, PyInt w) /\
  exists x' y' w',
    apply_transformation [PyInt (2 ^ 53 + 1); PyFloat (Finite (1 # 2)); PyInt 1]
      (int_matrix identity_matrix)
    = Value (PyFloat (Finite x'), PyFloat (Finite y'), PyFloat (Finite w')) /\
    (x' == inject_Z (2 ^ 53))%Q /\ (y' == 1 # 2)%Q /\ (w' == 1)%Q.
Proof.
  assert (E : apply_transformation [x; y; w] identity_matrix = Value (x, y, w)).
  { unfold identity_matrix. rewrite apply_transformation_int.
    f_equal. f_equal; [f_equal|]; ring. }
  split; [exact E|]. split.
  - change [PyInt x; PyInt y; PyInt w] with (ints [x; y; w]).
    rewrite apply_transformation_ints, E. reflexivity.
  - do 3 eexists. split; [vm_compute; reflexivity|].
    split; [|split]; reflexivity.
Qed.

(** X11 -- composition.  On ints, transforming by [m1] and then by [m2] is
    transforming once by the matrix product [m2 * m1], whether the ints are
    given as such or as Python numbers. *)
Theorem apply_transformation_compose (c : list Z) (m1 m2 : list (list Z)) :
  readable c m1 = true -> readable c m2 = true ->
  exists t1 t2,
    apply_transformation c m1 = Value t1 /\
    apply_transformation (as_list t1) m2 = Value t2 /\
    apply_transformation c (mat_mul m2 m1) = Value t2 /\
    apply_transformation (ints c) (int_matrix m1)
    = Value (PyInt (fst (fst t1)), PyInt (snd (fst t1)), PyInt (snd t1)) /\
    apply_transformation (ints (as_list t1)) (int_matrix m2)
    = Value (PyInt (fst (fst t2)), PyInt (snd (fst t2)), PyInt (snd t2)) /\
    apply_transformation (ints c) (int_matrix (mat_mul m2 m1))
    = Value (PyInt (fst (fst t2)), PyInt (snd (fst t2)), PyInt (snd t2)).
Proof.
  intros H1 H2.
  apply readable_shape in H1
    as (c0 & c1 & c2 & c' & a0 & a1 & a2 & a' & b0 & b1 & b2 & b'
        & d0 & d1 & d2 & d' & m' & -> & ->).
  apply readable_shape in H2
    as (e0 & e1 & e2 & e' & p0 & p1 & p2 & p' & q0 & q1 & q2 & q'
        & r0 & r1 & r2 & r' & n' & E & ->).
  assert (E1 : apply_transformation (c0 :: c1 :: c2 :: c')
                 (mat_mul ((p0 :: p1 :: p2 :: p') :: (q0 :: q1 :: q2 :: q')
                             :: (r0 :: r1 :: r2 :: r') :: n')
                          ((a0 :: a1 :: a2 :: a') :: (b0 :: b1 :: b2 :: b')
                             :: (d0 :: d1 :: d2 :: d') :: m'))
               = Value ((c0 * a0 + c1 * a1 + c2 * a2) * p0
                        + (c0 * b0 + c1 * b1 + c2 * b2) * p1
                        + (c0 * d0 + c1 * d1 + c2 * d2) * p2,
                        (c0 * a0 + c1 * a1 + c2 * a2) * q0
                        + (c0 * b0 + c1 * b1 + c2 * b2) * q1
                        + (c0 * d0 + c1 * d1 + c2 * d2) * q2,
                        (c0 * a0 + c1 * a1 + c2 * a2) * r0
                        + (c0 * b0 + c1 * b1 + c2 * b2) * r1
                        + (c0 * d0 + c1 * d1 + c2 * d2) * r2)).
  { unfold mat_mul, entry. cbn [map nth]. rewrite apply_transformation_int.
    f_equal. f_equal; [f_equal|]; ring. }
  do 2 eexists.
  split; [apply apply_transformation_int|].
  split; [apply apply_transformation_int|].
  split; [exact E1|].
  rewrite !apply_transformation_ints, E1, !apply_transformation_int.
  cbn [as_list fst snd]. rewrite apply_transformation_int.
  split; [reflexivity|]. split; reflexivity.
Qed.

Lemma apply_transformation_compose_witness :
  readable [1; 2; 1] [[1; 0; 3]; [0; 1; 4]; [0; 0; 1]] = true /\
  readable [1; 2; 1] [[2; 0; 0]; [0; 2; 0]; [0; 0; 1]] = true /\
  exists t1 t2,
    apply_transformation [1; 2; 1] [[1; 0; 3]; [0; 1; 4]; [0; 0; 1]] = Value t1 /\
    apply_transformation (as_list t1) [[2; 0; 0]; [0; 2; 0]; [0; 0; 1]] = Value t2 /\
    apply_transformation [1; 2; 1]
      (mat_mul [[2; 0; 0]; [0; 2; 0]; [0; 0; 1]]
               [[1; 0; 3]; [0; 1; 4]; [0; 0; 1]]) = Value t2 /\
    apply_transformation (ints [1; 2; 1])
      (int_matrix [[1; 0; 3]; [0; 1; 4]; [0; 0; 1]])
    = Value (PyInt (fst (fst t1)), PyInt (snd (fst t1)), PyInt (snd t1)) /\
    apply_transformation (ints (as_list t1))
      (int_matrix [[2; 0; 0]; [0; 2; 0]; [0; 0; 1]])
    = Value (PyInt (fst (fst t2)), PyInt (snd (fst t2)), PyInt (snd t2)) /\
    apply_transformation (ints [1; 2; 1])
      (int_matrix (mat_mul [[2; 0; 0]; [0; 2; 0]; [0; 0; 1]]
                           [[1; 0; 3]; [0; 1; 4]; [0; 0; 1]]))
    = Value (PyInt (fst (fst t2)), PyInt (snd (fst t2)), PyInt (snd t2)).
Proof.
  split; [reflexivity|]. split; [reflexivity|].
  apply (apply_transformation_compose [1; 2; 1]
           [[1; 0; 3]; [0; 1; 4]; [0; 0; 1]] [[2; 0; 0]; [0; 2; 0]; [0; 0; 1]]);
    reflexivity.
Defined.

(** * The script *)

(** ** Running the loops *)

(** A loop whose rounds behave as [step] says: it writes the results of
    the rounds up to the first that raises. *)
Lemma for_each_run {A L : Type} (body : A -> script unit) (step : A -> except L)
  (put : L -> files -> files) (c : A -> nat) (xs : list A) :
  (forall x, In x xs -> forall fs fuel,
      body x fs (c x + fuel)%nat
      = match step x with
        | Value l => Ok tt (put l fs) fuel
        | Raise e => Raised e fs
        end) ->
  forall fs fuel,
    for_each xs body fs (steps_cost step c xs + fuel)%nat
    = match failure step xs with
      | None => Ok tt (fold_left (fun fs l => put l fs) (written step xs) fs) fuel
      | Some e => Raised e (fold_left (fun fs l => put l fs) (written step xs) fs)
      end.
Proof.
  induction xs as [|x xs IH]; intros Hbody fs fuel.
  - reflexivity.
  - cbn [for_each steps_cost failure written]. unfold sbind.
    rewrite <- Nat.add_assoc. rewrite (Hbody x (or_introl eq_refl)).
    destruct (step x) as [l|e]; [|reflexivity].
    cbn [fold_left]. apply IH. intros x' Hin. apply Hbody. right. assumption.
Qed.

Lemma for_each_app {A : Type} (body : A -> script unit) (xs ys : list A) :
  forall fs fuel,
    for_each (xs ++ ys) body fs fuel
    = (for_each xs body ;;; for_each ys body) fs fuel.
Proof.
  induction xs as [|x xs IH]; intros fs fuel.
  - reflexivity.
  - simpl. unfold sbind.
    destruct (body x fs fuel) as [[] fs' rest| |]; [|reflexivity|reflexivity].
    rewrite IH. reflexivity.
Qed.

Lemma for_each_map {A B : Type} (f : A -> B) (body : B -> script unit)
  (xs : list A) :
  forall fs fuel,
    for_each (map f xs) body fs fuel = for_each xs (fun x => body (f x)) fs fuel.
Proof.
  induction xs as [|x xs IH]; intros fs fuel; [reflexivity|].
  simpl. unfold sbind.
  destruct (body (f x) fs fuel) as [[] fs' rest| |]; [|reflexivity|reflexivity].
  apply IH.
Qed.

(** Two nested loops are one loop over the pairs, outer index first. *)
Lemma for_each_nested {A B : Type} (body : A -> B -> script unit)
  (ys : list A) (xs : list B) :
  forall fs fuel,
    for_each ys (fun y => for_each xs (fun x => body y x)) fs fuel
    = for_each (flat_map (fun y => map (fun x => (y, x)) xs) ys)
        (fun p => body (fst p) (snd p)) fs fuel.
Proof.
  induction ys as [|y ys IH]; intros fs fuel; [reflexivity|].
  simpl flat_map. rewrite for_each_app. simpl for_each. unfold sbind.
  rewrite for_each_map. cbn [fst snd].
  destruct (for_each xs (fun x => body y x) fs fuel) as [[] fs' rest| |];
    [|reflexivity|reflexivity].
  apply IH.
Qed.

(** ** The rounds up to the first failure *)

Section Steps.

Context {A L : Type} (step : A -> except L).

Lemma failure_none (xs : list A) :
  (forall x, In x xs -> exists l, step x = Value l) -> failure step xs = None.
Proof.
  induction xs as [|x xs IH]; intros Hall; [reflexivity|].
  cbn [failure]. destruct (Hall x (or_introl eq_refl)) as (l & ->).
  apply IH. intros x' Hin. apply Hall. right. assumption.
Qed.

Lemma written_all (f : A -> L) (xs : list A) :
  (forall x, In x xs -> step x = Value (f x)) ->
  failure step xs = None /\ written step xs = map f xs.
Proof.
  induction xs as [|x xs IH]; intros Hall; [split; reflexivity|].
  cbn [failure written map]. rewrite (Hall x (or_introl eq_refl)).
  destruct IH as (IH1 & IH2); [intros x' Hin; apply Hall; right; assumption|].
  split; [assumption | f_equal; assumption].
Qed.

Lemma written_length (xs : list A) :
  (List.length (written step xs) <= List.length xs)%nat /\
  (failure step xs = None -> List.length (written step xs) = List.length xs) /\
  (forall e, failure step xs = Some e ->
             (List.length (written step xs) < List.length xs)%nat).
Proof.
  induction xs as [|x xs (IH1 & IH2 & IH3)].
  - cbn. split; [lia|]. split; [reflexivity | discriminate].
  - cbn [failure written]. destruct (step x) as [l|e0]; cbn [List.length].
    + split; [lia|]. split.
      * intros Hn. rewrite IH2 by assumption. reflexivity.
      * intros e He. specialize (IH3 e He). lia.
    + split; [lia|]. split; [discriminate | intros; lia].
Qed.


Lemma failure_in (xs : list A) (e : exn) :
  failure step xs = Some e -> exists x, In x xs /\ step x = Raise e.
Proof.
  induction xs as [|x xs IH]; [discriminate|].
  cbn [failure]. destruct (step x) as [l0|e0] eqn:E.
  - intros Hf. destruct (IH Hf) as (x' & Hx' & E'). exists x'. split; [right|]; assumption.
  - intros Hf. inversion Hf; subst. exists x. split; [left; reflexivity | assumption].
Qed.

Lemma failure_some (xs : list A) (x : A) (e0 : exn) :
  In x xs -> step x = Raise e0 -> exists e, failure step xs = Some e.
Proof.
  induction xs as [|x' xs IH]; [intros []|].
  cbn [failure]. intros [->|Hin] Hx.
  - rewrite Hx. eexists. reflexivity.
  - destruct (step x'); [apply IH; assumption | eexists; reflexivity].
Qed.

End Steps.

(** ** What the rounds write *)

Lemma content_write (g f : stream) (s : string) (fs : files) :
  content g (write f s fs)
  = if match g, f with
       | X_int_file, X_int_file | X_frac_file, X_frac_file
       | Y_int_file, Y_int_file | Y_frac_file, Y_frac_file
       | Matrix_file, Matrix_file => true
       | _, _ => false
       end
    then content g fs ++ s else content g fs.
Proof. destruct g, f; reflexivity. Qed.

Lemma join_app (ls1 ls2 : list string) : join (ls1 ++ ls2) = join ls1 ++ join ls2.
Proof.
  induction ls1 as [|l ls1 IH]; [reflexivity|].
  simpl. rewrite IH, !append_assoc. reflexivity.
Qed.

Lemma matrix_lines_content (ls : list string) :
  forall fs g,
    content g (fold_left (fun fs l => append_matrix_line l fs) ls fs)
    = match g with
      | Matrix_file => content g fs ++ join ls
      | _ => content g fs
      end.
Proof.
  induction ls as [|l ls IH]; intros fs g.
  - simpl. destruct g; try reflexivity. simpl. rewrite append_nil_r. reflexivity.
  - simpl fold_left. rewrite IH. unfold append_matrix_line.
    destruct g; try reflexivity.
    simpl. rewrite !append_assoc. reflexivity.
Qed.

(** The line of a round of the grid loop that goes to the file [g]. *)
Lemma coordinate_lines_content (ls : list ((string * string) * (string * string))) :
  forall fs g,
    content g (fold_left (fun fs l => append_coordinate_lines l fs) ls fs)
    = match g with
      | X_int_file => content g fs ++ join (map (fun l => fst (fst l)) ls)
      | X_frac_file => content g fs ++ join (map (fun l => snd (fst l)) ls)
      | Y_int_file => content g fs ++ join (map (fun l => fst (snd l)) ls)
      | Y_frac_file => content g fs ++ join (map (fun l => snd (snd l)) ls)
      | Matrix_file => content g fs
      end.
Proof.
  induction ls as [|l ls IH]; intros fs g.
  - simpl. destruct g; try reflexivity; simpl; rewrite append_nil_r; reflexivity.
  - simpl fold_left. rewrite IH. unfold append_coordinate_lines.
    destruct g; try reflexivity; simpl; rewrite !append_assoc; reflexivity.
Qed.

(** ** One round *)

Lemma call_encoder (v : Q) (int_bits frac_bits : Z) (fs : files) (fuel : nat) :
  call (float_to_bin_str v int_bits frac_bits) fs (cost v frac_bits + fuel)%nat
  = match outcome v int_bits frac_bits with
    | Value r => Ok r fs fuel
    | Raise e => Raised e fs
    end.
Proof. unfold call. rewrite float_to_bin_str_run. reflexivity. Qed.

Lemma write_matrix_entry_run (matrix : list (list Z)) (num_frac_bits : Z) (p : Z * Z) :
  forall fs fuel,
    write_matrix_entry matrix num_frac_bits (fst p) (snd p) fs
      (matrix_step_cost matrix num_frac_bits p + fuel)%nat
    = match matrix_step matrix num_frac_bits p with
      | Value l => Ok tt (append_matrix_line l fs) fuel
      | Raise e => Raised e fs
      end.
Proof.
  intros fs fuel.
  unfold write_matrix_entry, matrix_step, matrix_step_cost, lookup, sbind.
  destruct (subscript matrix (fst p)) as [row|e]; [|reflexivity].
  cbn [attempt xbind].
  destruct (subscript row (snd p)) as [z|e]; [|reflexivity].
  cbn [attempt xbind]. rewrite call_encoder.
  destruct (outcome (inject_Z z) 11 num_frac_bits) as [[i f]|e]; reflexivity.
Qed.

Lemma write_coordinate_run (matrix : list (list Z))
  (num_int_bits num_frac_bits : Z) (p : Z * Z) :
  forall fs fuel,
    write_coordinate matrix num_int_bits num_frac_bits (fst p) (snd p) fs
      (coordinate_step_cost matrix num_int_bits num_frac_bits p + fuel)%nat
    = match coordinate_step matrix num_int_bits num_frac_bits p with
      | Value l => Ok tt (append_coordinate_lines l fs) fuel
      | Raise e => Raised e fs
      end.
Proof.
  intros fs fuel.
  unfold write_coordinate, coordinate_step, coordinate_step_cost, sbind.
  destruct (apply_transformation [snd p; fst p; 1] matrix) as [[[x y] w]|e];
    [|reflexivity].
  cbn [attempt xbind fst snd].
  rewrite <- Nat.add_assoc, call_encoder.
  destruct (outcome (inject_Z x) num_int_bits num_frac_bits) as [[xi xf]|e];
    [|reflexivity].
  cbn [xbind]. rewrite call_encoder.
  destruct (outcome (inject_Z y) num_int_bits num_frac_bits) as [[yi yf]|e];
    reflexivity.
Qed.

(** ** The whole script *)

(** The files after the two loops, and whether and how the script ends. *)
Lemma main_run (width height : Z) (matrix : list (list Z))
  (num_int_bits num_frac_bits : Z) :
  let ms := matrix_step matrix num_frac_bits in
  let cs := coordinate_step matrix num_int_bits num_frac_bits in
  let fs1 := fold_left (fun fs l => append_matrix_line l fs)
               (written ms matrix_pairs) opened in
  let fs2 := fold_left (fun fs l => append_coordinate_lines l fs)
               (written cs (grid width height)) fs1 in
  exists n,
    forall fuel,
      main width height matrix num_int_bits num_frac_bits opened (n + fuel)%nat
      = match failure ms matrix_pairs with
        | Some e => Raised e fs1
        | None =>
            match failure cs (grid width height) with
            | Some e => Raised e fs2
            | None => Ok tt fs2 fuel
            end
        end.
Proof.
  intros ms cs fs1 fs2.
  set (n1 := steps_cost ms (matrix_step_cost matrix num_frac_bits) matrix_pairs).
  set (n2 := steps_cost cs (coordinate_step_cost matrix num_int_bits num_frac_bits)
               (grid width height)).
  exists (n1 + n2)%nat. intros fuel.
  unfold main, sbind. rewrite for_each_nested.
  change (flat_map (fun y => map (fun x => (y, x)) (range 3)) (range 3))
    with matrix_pairs.
  rewrite <- Nat.add_assoc.
  rewrite (for_each_run _ ms append_matrix_line
             (matrix_step_cost matrix num_frac_bits)).
  2:{ intros p _ fs fuel'. apply write_matrix_entry_run. }
  fold fs1. destruct (failure ms matrix_pairs) as [e|]; [reflexivity|].
  rewrite for_each_nested. fold (grid width height).
  rewrite (for_each_run _ cs append_coordinate_lines
             (coordinate_step_cost matrix num_int_bits num_frac_bits)).
  2:{ intros p _ fs fuel'. apply write_coordinate_run. }
  fold fs2. reflexivity.
Qed.

(** ** The grid and the entries *)


Lemma in_range (n x : Z) : In x (range n) -> 0 <= x < n.
Proof.
  unfold range. intros H. apply in_map_iff in H as (k & <- & Hk).
  apply in_seq in Hk. lia.
Qed.


Lemma in_grid (width height : Z) (p : Z * Z) :
  In p (grid width height) -> 0 <= fst p < height /\ 0 <= snd p < width.
Proof.
  unfold grid. intros H. apply in_flat_map in H as (y & Hy & H).
  apply in_map_iff in H as (x & <- & Hx).
  apply in_range in Hy. apply in_range in Hx. simpl. lia.
Qed.

Lemma combine_map_map {A B C : Type} (f : A -> B) (g : A -> C) (l : list A) :
  combine (map f l) (map g l) = map (fun a => (f a, g a)) l.
Proof. induction l as [|a l IH]; simpl; [reflexivity | rewrite IH; reflexivity]. Qed.

(** On a well-formed matrix the pairs of the matrix loop find the nine
    entries, in order. *)
Lemma lookup_well_formed (matrix : list (list Z)) :
  well_formed matrix = true ->
  exists es,
    matrix_entries matrix = es /\ List.length es = 9%nat /\
    map (lookup matrix) matrix_pairs = map (@Value Z) es.
Proof.
  intros H. apply well_formed_shape in H
    as (a0 & a1 & a2 & a' & b0 & b1 & b2 & b' & d0 & d1 & d2 & d' & m' & ->).
  eexists. split; [reflexivity|]. split; reflexivity.
Qed.

Lemma lookup_entry (matrix : list (list Z)) :
  well_formed matrix = true ->
  (forall p, In p matrix_pairs ->
             exists e, lookup matrix p = Value e /\ In e (matrix_entries matrix)) /\
  (forall e, In e (matrix_entries matrix) ->
             exists p, In p matrix_pairs /\ lookup matrix p = Value e).
Proof.
  intros H. destruct (lookup_well_formed matrix H) as (es & -> & _ & Hmap).
  split.
  - intros p Hin. apply (in_map (lookup matrix)) in Hin. rewrite Hmap in Hin.
    apply in_map_iff in Hin as (e & He & Hin). exists e. split; [congruence | assumption].
  - intros e Hin. apply (in_map (@Value Z)) in Hin. rewrite <- Hmap in Hin.
    apply in_map_iff in Hin as (p & Hp & Hin). exists p. split; assumption.
Qed.




Lemma xform_value (matrix : list (list Z)) (p : Z * Z) :
  well_formed matrix = true ->
  exists w,
    apply_transformation [snd p; fst p; 1] matrix
    = Value (fst (xform matrix p), snd (xform matrix p), w).
Proof.
  intros H. unfold xform.
  apply well_formed_shape in H
    as (a0 & a1 & a2 & a' & b0 & b1 & b2 & b' & d0 & d1 & d2 & d' & m' & ->).
  rewrite apply_transformation_int. eexists. reflexivity.
Qed.

Lemma xform_identity (p : Z * Z) : xform identity_matrix p = (snd p, fst p).
Proof.
  unfold xform, identity_matrix. rewrite apply_transformation_int.
  f_equal; ring.
Qed.

(** ** The lines of a round *)


Lemma outcome_int_returns (z int_bits frac_bits : Z) :
  frac_bits <= 0 \/ fits_double z ->
  exists r, outcome (inject_Z z) int_bits frac_bits = Value r.
Proof.
  intros H.
  destruct (outcome_returns (inject_Z z) int_bits frac_bits) as (t & E & _).
  - rewrite Qfloor_Z. assumption.
  - eexists. exact E.
Qed.


Lemma matrix_step_raise (matrix : list (list Z)) (num_frac_bits : Z) (p : Z * Z)
  (e : exn) :
  matrix_step matrix num_frac_bits p = Raise e ->
  (e = IndexError /\ lookup matrix p = Raise IndexError) \/
  (e = OverflowError /\ 1 <= num_frac_bits /\
   exists z, lookup matrix p = Value z /\ ~ fits_double z).
Proof.
  unfold matrix_step. intros H.
  apply xbind_raise in H as [H|(z & Hz & H)].
  - left. assert (e = IndexError).
    { unfold lookup in H.
      apply xbind_raise in H as [H|(row & _ & H)]; eapply subscript_raise; eassumption. }
    subst e. split; [reflexivity | assumption].
  - right. apply xbind_raise in H as [H|(r & _ & H)]; [|discriminate].
    apply outcome_raise in H as (-> & Hfb & Hfit & _).
    rewrite Qfloor_Z in Hfit.
    split; [reflexivity|]. split; [assumption|]. exists z. split; assumption.
Qed.


(** An int in [[-2^m, 2^m)] with [m + frac_bits <= 53] is encoded as
    itself. *)
Lemma outcome_int_exact (z int_bits frac_bits m : Z) :
  1 <= int_bits -> 0 <= frac_bits ->
  0 <= m <= int_bits - 1 -> m + frac_bits <= 53 ->
  - 2 ^ m <= z < 2 ^ m ->
  exists i f,
    outcome (inject_Z z) int_bits frac_bits = Value (i, f) /\
    twos_complement (i ++ f) = z * 2 ^ frac_bits.
Proof.
  intros Hib Hfb Hm Hbits Hz.
  assert (Hlo : (inject_Z (- 2 ^ m) <= inject_Z z)%Q) by (rewrite <- Zle_Qle; lia).
  assert (Hhi : (inject_Z z < inject_Z (2 ^ m))%Q) by (rewrite <- Zlt_Qlt; lia).
  pose proof (outcome_exact (inject_Z z) int_bits frac_bits m Hfb ltac:(lia)
                Hbits Hlo Hhi) as Hout.
  destruct (range_widen (inject_Z z) m (int_bits - 1) Hm Hlo Hhi) as (Hlo' & Hhi').
  pose proof (exact_encoding_decode (inject_Z z) int_bits frac_bits Hib Hfb Hlo' Hhi')
    as D.
  destruct (exact_encoding (inject_Z z) int_bits frac_bits) as [i f].
  cbn [fst snd] in D. exists i, f. split; [exact Hout|].
  rewrite D. rewrite <- (Qfloor_Z (z * 2 ^ frac_bits)). apply Qfloor_comp.
  rewrite inject_Z_mult. reflexivity.
Qed.

(** ** Properties of the script *)



(** X13 -- identity grid.  With the identity matrix, a grid whose width and
    height are at most [2^(int_bits-1)] and [int_bits + frac_bits <= 54],
    the script finishes and the lines it writes for the grid point (x, y),
    integer and fraction line put together, are the two's-complement
    fixed-point encodings of exactly x (column files) and y (row files), in
    the order of the loops: rows outermost. *)
Theorem identity_grid_round_trip (width height num_int_bits num_frac_bits : Z) :
  1 <= num_int_bits -> 0 <= num_frac_bits ->
  num_int_bits + num_frac_bits <= 54 ->
  width <= 2 ^ (num_int_bits - 1) -> height <= 2 ^ (num_int_bits - 1) ->
  exists fs n xi xf yi yf,
    finishes (main width height identity_matrix num_int_bits num_frac_bits)
      opened fs n /\
    x_int_file fs = join xi /\ x_frac_file fs = join xf /\
    y_int_file fs = join yi /\ y_frac_file fs = join yf /\
    map (fun l => twos_complement (fst l ++ snd l)) (combine xi xf)
    = map (fun p => snd p * 2 ^ num_frac_bits) (grid width height) /\
    map (fun l => twos_complement (fst l ++ snd l)) (combine yi yf)
    = map (fun p => fst p * 2 ^ num_frac_bits) (grid width height).
Proof.
  intros Hib Hfb Hbits Hw Hh.
  destruct (main_run width height identity_matrix num_int_bits num_frac_bits)
    as (n & Hrun).
  cbv zeta in Hrun.
  set (ms := matrix_step identity_matrix num_frac_bits) in *.
  set (cs := coordinate_step identity_matrix num_int_bits num_frac_bits) in *.
  destruct (lookup_entry identity_matrix eq_refl) as (Hlook & _).
  assert (Hm : failure ms matrix_pairs = None).
  { apply failure_none. intros p Hin.
    destruct (Hlook p Hin) as (e & He & Hine).
    unfold ms, matrix_step. rewrite He. cbn [xbind].
    destruct (outcome_int_returns e 11 num_frac_bits) as (r & ->).
    - right. vm_compute in Hine.
      repeat (destruct Hine as [<-|Hine]; [reflexivity|]). destruct Hine.
    - eexists. reflexivity. }
  set (f := fun p => match cs p with
                     | Value l => l
                     | Raise _ => (("", ""), ("", ""))
                     end).
  assert (Hstep : forall p, In p (grid width height) ->
             cs p = Value (f p) /\
             twos_complement (fst (fst (f p)) ++ snd (fst (f p)))
             = snd p * 2 ^ num_frac_bits /\
             twos_complement (fst (snd (f p)) ++ snd (snd (f p)))
             = fst p * 2 ^ num_frac_bits).
  { intros p Hin. apply in_grid in Hin as (Hy & Hx).
    destruct (xform_value identity_matrix p eq_refl) as (w & Hxf).
    rewrite xform_identity in Hxf. cbn [fst snd] in Hxf.
    destruct (outcome_int_exact (snd p) num_int_bits num_frac_bits (num_int_bits - 1))
      as (xi & xf & Ex & Dx); try lia.
    destruct (outcome_int_exact (fst p) num_int_bits num_frac_bits (num_int_bits - 1))
      as (yi & yf & Ey & Dy); try lia.
    assert (E : cs p = Value ((xi, xf), (yi, yf))).
    { unfold cs, coordinate_step. rewrite Hxf. cbn [xbind fst snd].
      rewrite Ex. cbn [xbind]. rewrite Ey. reflexivity. }
    unfold f. rewrite E. cbn [fst snd]. auto. }
  destruct (written_all cs f (grid width height)) as (Hc & Hw').
  { intros p Hin. apply (Hstep p Hin). }
  rewrite Hm, Hc, Hw' in Hrun.
  set (fs1 := fold_left (fun fs l => append_matrix_line l fs)
                (written ms matrix_pairs) opened) in *.
  set (fs2 := fold_left (fun fs l => append_coordinate_lines l fs)
                (map f (grid width height)) fs1) in *.
  assert (C : forall g,
             content g fs2
             = match g with
               | X_int_file => join (map (fun l => fst (fst l))
                                       (map f (grid width height)))
               | X_frac_file => join (map (fun l => snd (fst l))
                                        (map f (grid width height)))
               | Y_int_file => join (map (fun l => fst (snd l))
                                       (map f (grid width height)))
               | Y_frac_file => join (map (fun l => snd (snd l))
                                        (map f (grid width height)))
               | Matrix_file => join (written ms matrix_pairs)
               end).
  { intros g. unfold fs2. rewrite coordinate_lines_content.
    unfold fs1. rewrite matrix_lines_content. destruct g; reflexivity. }
  exists fs2, n. do 4 eexists.
  split; [exact Hrun|].
  split; [exact (C X_int_file)|]. split; [exact (C X_frac_file)|].
  split; [exact (C Y_int_file)|]. split; [exact (C Y_frac_file)|].
  rewrite !combine_map_map, !map_map. cbn [fst snd].
  split; apply map_ext_in; intros p Hin; apply (Hstep p Hin).
Qed.

Lemma identity_grid_round_trip_witness :
  1 <= 5 /\ 0 <= 12 /\ 5 + 12 <= 54 /\ 10 <= 2 ^ (5 - 1) /\ 10 <= 2 ^ (5 - 1) /\
  exists fs n xi xf yi yf,
    finishes example_usage opened fs n /\
    x_int_file fs = join xi /\ x_frac_file fs = join xf /\
    y_int_file fs = join yi /\ y_frac_file fs = join yf /\
    map (fun l => twos_complement (fst l ++ snd l)) (combine xi xf)
    = map (fun p => snd p * 2 ^ 12) (grid 10 10) /\
    map (fun l => twos_complement (fst l ++ snd l)) (combine yi yf)
    = map (fun p => fst p * 2 ^ 12) (grid 10 10).
Proof.
  split; [lia|]. split; [lia|]. split; [lia|].
  split; [simpl; lia|]. split; [simpl; lia|].
  apply (identity_grid_round_trip 10 10 5 12); simpl; lia.
Defined.



(** The matrix loop stops at the first round that raises: the coordinate
    files are still empty and the matrix file is short. *)
Lemma matrix_loop_aborts (width height : Z) (matrix : list (list Z))
  (num_int_bits num_frac_bits : Z) (e : exn) :
  failure (matrix_step matrix num_frac_bits) matrix_pairs = Some e ->
  exists fs n ml,
    aborts (main width height matrix num_int_bits num_frac_bits) opened fs e n /\
    x_int_file fs = "" /\ x_frac_file fs = "" /\
    y_int_file fs = "" /\ y_frac_file fs = "" /\
    matrix_file fs = join ml /\ (List.length ml < 9)%nat.
Proof.
  intros Hf.
  destruct (main_run width height matrix num_int_bits num_frac_bits) as (n & Hrun).
  cbv zeta in Hrun. rewrite Hf in Hrun.
  eexists. exists n, (written (matrix_step matrix num_frac_bits) matrix_pairs).
  split; [exact Hrun|].
  pose proof (matrix_lines_content
                (written (matrix_step matrix num_frac_bits) matrix_pairs) opened) as C.
  split; [exact (C X_int_file)|]. split; [exact (C X_frac_file)|].
  split; [exact (C Y_int_file)|]. split; [exact (C Y_frac_file)|].
  split; [exact (C Matrix_file)|].
  destruct (written_length (matrix_step matrix num_frac_bits) matrix_pairs)
    as (_ & _ & L).
  apply (L e Hf).
Qed.



(** X16 -- overflow in the matrix loop.  An int too large for a double
    among the nine entries, with
    [frac_bits >= 1], ends the script in the matrix loop with the
    OverflowError of the encoder: the coordinate files are left empty, and
    the matrix file holds fewer than 9 lines. *)
Theorem huge_entry_raises (width height : Z) (matrix : list (list Z))
  (num_int_bits num_frac_bits : Z) (z : Z) :
  well_formed matrix = true -> 1 <= num_frac_bits ->
  In z (matrix_entries matrix) -> ~ fits_double z ->
  exists fs n ml,
    aborts (main width height matrix num_int_bits num_frac_bits) opened fs
      OverflowError n /\
    x_int_file fs = "" /\ x_frac_file fs = "" /\
    y_int_file fs = "" /\ y_frac_file fs = "" /\
    matrix_file fs = join ml /\ (List.length ml < 9)%nat.
Proof.
  intros Hwf Hfb Hin Hz.
  destruct (lookup_entry matrix Hwf) as (Hlook & Hfind).
  destruct (Hfind z Hin) as (p & Hp & Ep).
  destruct (failure_some (matrix_step matrix num_frac_bits) matrix_pairs p
              OverflowError Hp) as (e & Hf).
  { unfold matrix_step. rewrite Ep. cbn [xbind].
    assert (E : outcome (inject_Z z) 11 num_frac_bits = Raise OverflowError).
    { apply outcome_raises_iff. rewrite Qfloor_Z. split; assumption. }
    rewrite E. reflexivity. }
  assert (He : e = OverflowError).
  { destruct (failure_in _ _ _ Hf) as (q & Hq & Eq).
    apply matrix_step_raise in Eq as [(_ & Eq)|(-> & _)]; [|reflexivity].
    destruct (Hlook q Hq) as (e' & Ee' & _). congruence. }
  subst e.
  apply (matrix_loop_aborts width height matrix num_int_bits num_frac_bits _ Hf).
Qed.

Lemma huge_entry_raises_witness :
  well_formed [[1; 0; 0]; [0; 2 ^ 1024; 0]; [0; 0; 1]] = true /\ 1 <= 12 /\
  In (2 ^ 1024) (matrix_entries [[1; 0; 0]; [0; 2 ^ 1024; 0]; [0; 0; 1]]) /\
  ~ fits_double (2 ^ 1024) /\
  exists fs n ml,
    aborts (main 10 10 [[1; 0; 0]; [0; 2 ^ 1024; 0]; [0; 0; 1]] 5 12) opened fs
      OverflowError n /\
    x_int_file fs = "" /\ x_frac_file fs = "" /\
    y_int_file fs = "" /\ y_frac_file fs = "" /\
    matrix_file fs = join ml /\ (List.length ml < 9)%nat.
Proof.
  assert (H1 : In (2 ^ 1024) (matrix_entries [[1; 0; 0]; [0; 2 ^ 1024; 0]; [0; 0; 1]])).
  { cbn [matrix_entries firstn flat_map app In]. tauto. }
  assert (H2 : ~ fits_double (2 ^ 1024)).
  { intros H. vm_compute in H. discriminate H. }
  split; [reflexivity|]. split; [lia|]. split; [exact H1|]. split; [exact H2|].
  apply (huge_entry_raises 10 10 [[1; 0; 0]; [0; 2 ^ 1024; 0]; [0; 0; 1]] 5 12
           (2 ^ 1024) eq_refl ltac:(lia) H1 H2).
Defined.
